(** * FFTConvolution (mlpack, methods/ann/convolution_rules/fft_convolution.hpp)

    A shallow embedding of the two [Convolution] overloads of
    [FFTConvolution<BorderMode, padLastDim>] and of the Armadillo matrix
    operations they call, followed by the properties of the two border
    modes.

    Conventions of the embedding.
    - [uword]/[size_t] values are integers in [0, 2^64) and every
      arithmetic operation of the source on them wraps modulo 2^64.
    - A matrix is Armadillo's dense column-major [Mat<eT>]: a row count, a
      column count and the element memory.
    - Element values are taken in [Z]: an exact commutative ring that
      stands for the real numbers the floating-point elements approximate.
      Rounding of the transform round trip is outside the model.
    - The matrices the three reference parameters of [Convolution] denote
      live in a store indexed by object identity, so that a call in which
      two parameters name the same object is a call like any other.
    - Armadillo's run-time checks are enabled (its default): a failed
      check throws, which ends the call with the store as it is then. *)

From stdpp Require Import gmap list list_numbers.

Local Open Scope Z_scope.

(** ** Unsigned machine words *)

Module Word.

Definition bits : Z := 64.
Definition modulus : Z := 2 ^ bits.

(** Reduction of an integer to the value of the [uword] that holds it. *)
Definition wrap (z : Z) : Z := z mod modulus.

Definition add (a b : Z) : Z := wrap (a + b).
Definition sub (a b : Z) : Z := wrap (a - b).
Definition mul (a b : Z) : Z := wrap (a * b).

Definition in_range (z : Z) : Prop := 0 <= z < modulus.

End Word.

(** ** Dense matrices *)

Record Mat : Type := mkMat {
  n_rows : Z;
  n_cols : Z;
  mem : list Z
}.

Global Instance Mat_eq_dec : EqDecision Mat.
Proof. solve_decision. Defined.

Definition n_elem (M : Mat) : Z := n_rows M * n_cols M.

(** Element [(i, j)] of a matrix: column-major memory, as [Mat::at]. *)
Definition at_ (M : Mat) (i j : Z) : Z :=
  default 0 (mem M !! Z.to_nat (i + j * n_rows M)).

(** The matrix of the given shape whose element [(i, j)] is [f i j]. *)
Definition build (r c : Z) (f : Z → Z → Z) : Mat :=
  mkMat r c ((λ k, f (k mod r) (k / r)) <$> seqZ 0 (r * c)).

(** Smallest element size of a floating-point [eT], in bytes. *)
Definition min_sizeof_eT : Z := 4.

(** A matrix object as it can exist in a 64-bit address space: the shape
    counts are [uword]s, the memory holds [n_rows * n_cols] elements and
    fits the address space. *)
Record wf (M : Mat) : Prop := mkWf {
  wf_rows : 0 <= n_rows M;
  wf_cols : 0 <= n_cols M;
  wf_mem : Z.of_nat (length (mem M)) = n_elem M;
  wf_fits : min_sizeof_eT * n_elem M < Word.modulus
}.

(** Finite sums [f 0 + ... + f (n - 1)]. *)
Definition sumZ (n : Z) (f : Z → Z) : Z :=
  foldr Z.add 0 (f <$> seqZ 0 n).

(** *** Armadillo operations used by the source

    Armadillo is not part of this repository.  Each operation below is
    the one the spec lists among the collaborators of the engine
    (external interfaces), with the run-time check Armadillo documents
    for it. *)

(** Modelled from the spec: [arma::zeros<Mat<eT>>(r, c)], a zero matrix
    of the given shape. *)
Definition zeros (r c : Z) : Mat := build r c (λ _ _, 0).

(** Modelled from the spec: [M.resize(r, c)], the resize that preserves
    existing entries and zero-fills new ones; entries beyond the new
    shape are dropped. *)
Definition resize (M : Mat) (r c : Z) : Mat :=
  build r c (λ i j,
    if bool_decide (i < n_rows M) && bool_decide (j < n_cols M)
    then at_ M i j else 0).

(** Modelled from the spec: sub-region extraction by inclusive row and
    column ranges, [Mat::submat(r1, c1, r2, c2)].  Its check: Armadillo
    throws "indices out of bounds or incorrectly used" when
    [r1 > r2 || c1 > c2 || r2 >= n_rows || c2 >= n_cols]. *)
Definition submat_ok (M : Mat) (r1 c1 r2 c2 : Z) : bool :=
  negb (bool_decide (r1 > r2) || bool_decide (c1 > c2)
        || bool_decide (r2 >= n_rows M) || bool_decide (c2 >= n_cols M)).

(** Reading [M.submat(r1, c1, r2, c2)]; [None] is the thrown check. *)
Definition submat (M : Mat) (r1 c1 r2 c2 : Z) : option Mat :=
  if submat_ok M r1 c1 r2 c2
  then Some (build (r2 - r1 + 1) (c2 - c1 + 1)
                   (λ i j, at_ M (r1 + i) (c1 + j)))
  else None.

(** [M.submat(r1, c1, r2, c2) = X]: the window check, then the check
    that [X] has the shape of the window, then the copy. *)
Definition set_submat (M : Mat) (r1 c1 r2 c2 : Z) (X : Mat) : option Mat :=
  if submat_ok M r1 c1 r2 c2
     && bool_decide (n_rows X = r2 - r1 + 1)
     && bool_decide (n_cols X = c2 - c1 + 1)
  then Some (build (n_rows M) (n_cols M) (λ i j,
         if bool_decide (r1 <= i <= r2) && bool_decide (c1 <= j <= c2)
         then at_ X (i - r1) (j - c1) else at_ M i j))
  else None.

(** Modelled from the spec: Armadillo's [fft2], [ifft2], [%] and
    [arma::real] are not part of this repository.  The spec (component
    design, step 4 of both modes) gives their composition
    [real(ifft2(fft2(A) % fft2(B)))] as the circular convolution of the
    two working buffers, of the working shape.  [%] throws when its
    operands differ in shape. *)
Definition circular (A B : Mat) : Mat :=
  build (n_rows A) (n_cols A) (λ i j,
    sumZ (n_rows A) (λ k, sumZ (n_cols A) (λ l,
      at_ A ((i - k) mod n_rows A) ((j - l) mod n_cols A) * at_ B k l))).

(** [arma::real(ifft2(arma::fft2(A) % arma::fft2(B)))]. *)
Definition fft_product (A B : Mat) : option Mat :=
  if bool_decide (n_rows A = n_rows B) && bool_decide (n_cols A = n_cols B)
  then Some (circular A B)
  else None.

(** ** The store and the calls *)

(** Identity of a matrix object (what a C++ reference denotes). *)
Definition ref : Type := nat.

(** How a call ends. *)
Inductive exn : Type :=
  | logic_error   (* thrown by one of Armadillo's checks *)
  | no_object.    (* the reference names no matrix of the store *)

Inductive outcome (A : Type) : Type :=
  | Returned (a : A)
  | Thrown (e : exn).
Global Arguments Returned {A} a.
Global Arguments Thrown {A} e.

Global Instance exn_eq_dec : EqDecision exn.
Proof. solve_decision. Defined.

(** State-and-exception monad over the store of matrix objects. *)
Definition Run (A : Type) : Type := gmap ref Mat → gmap ref Mat * outcome A.

Global Instance Run_ret : MRet Run := λ A a σ, (σ, Returned a).

Global Instance Run_bind : MBind Run := λ A B k m σ,
  match m σ with
  | (σ', Returned a) => k a σ'
  | (σ', Thrown e) => (σ', Thrown e)
  end.

(** Reading the matrix a reference denotes. *)
Definition read (l : ref) : Run Mat :=
  λ σ, match σ !! l with
       | Some M => (σ, Returned M)
       | None => (σ, Thrown no_object)
       end.

(** [l = M]: assignment to the matrix a reference denotes. *)
Definition assign (l : ref) (M : Mat) : Run unit :=
  λ σ, (<[l := M]> σ, Returned tt).

(** An Armadillo operation that throws when its check fails. *)
Definition checked {A} (o : option A) : Run A :=
  λ σ, match o with
       | Some a => (σ, Returned a)
       | None => (σ, Thrown logic_error)
       end.

(** [FFTConvolution<ValidConvolution, padLastDim>::Convolution]
    (lines 49-69 of the source). *)
Definition Convolution_valid (padLastDim : bool)
    (input filter output : ref) : Run unit :=
  inputPadded ← read input;                                  (* line 53 *)
  filterPadded ← read filter;                                (* line 54 *)
  let inputPadded :=                                         (* lines 56-57 *)
    if padLastDim
    then resize inputPadded (n_rows inputPadded)
                (Word.add (n_cols inputPadded) 1)
    else inputPadded in
  let filterPadded :=                                        (* line 60 *)
    resize filterPadded (n_rows inputPadded) (n_cols inputPadded) in
  product ← checked (fft_product inputPadded filterPadded);  (* lines 62-63 *)
  assign output product;;
  out ← read output;                                         (* lines 67-68 *)
  flt ← read filter;
  inp ← read input;
  window ← checked (submat out
    (Word.sub (n_rows flt) 1) (Word.sub (n_cols flt) 1)
    (Word.sub (n_rows inp) 1) (Word.sub (n_cols inp) 1));
  assign output window.

(** [FFTConvolution<FullConvolution, padLastDim>::Convolution]
    (lines 84-116 of the source). *)
Definition Convolution_full (padLastDim : bool)
    (input filter output : ref) : Run unit :=
  inp ← read input;
  flt ← read filter;
  let outputRows :=                                          (* line 91 *)
    Word.add (n_rows inp) (Word.mul 2 (Word.sub (n_rows flt) 1)) in
  let outputCols :=                                          (* line 92 *)
    Word.add (n_cols inp) (Word.mul 2 (Word.sub (n_cols flt) 1)) in
  let outputCols :=                                          (* lines 94-95 *)
    if padLastDim then Word.add outputCols 1 else outputCols in
  let inputPadded := zeros outputRows outputCols in          (* lines 98-99 *)
  inputPadded ← checked (set_submat inputPadded              (* lines 100-102 *)
    (Word.sub (n_rows flt) 1) (Word.sub (n_cols flt) 1)
    (Word.sub (Word.add (Word.sub (n_rows flt) 1) (n_rows inp)) 1)
    (Word.sub (Word.add (Word.sub (n_cols flt) 1) (n_cols inp)) 1)
    inp);
  let filterPadded := resize flt outputRows outputCols in    (* lines 104-105 *)
  product ← checked (fft_product inputPadded filterPadded);  (* lines 108-109 *)
  assign output product;;
  out ← read output;                                         (* lines 113-115 *)
  flt ← read filter;
  inp ← read input;
  window ← checked (submat out
    (Word.sub (n_rows flt) 1) (Word.sub (n_cols flt) 1)
    (Word.sub (Word.add (Word.mul 2 (Word.sub (n_rows flt) 1))
                        (n_rows inp)) 1)
    (Word.sub (Word.add (Word.mul 2 (Word.sub (n_cols flt) 1))
                        (n_cols inp)) 1));
  assign output window.

(** The two border modes, and the call of the class template
    instantiated at a mode and a [padLastDim]. *)
Inductive BorderMode : Type := ValidConvolution | FullConvolution.

Definition Convolution (mode : BorderMode) (padLastDim : bool)
    (input filter output : ref) : Run unit :=
  match mode with
  | ValidConvolution => Convolution_valid padLastDim input filter output
  | FullConvolution => Convolution_full padLastDim input filter output
  end.

(** ** Direct convolution *)

(** The operand of a linear convolution: the matrix inside its shape,
    zero outside. *)
Definition ext (M : Mat) (i j : Z) : Z :=
  if bool_decide (0 <= i < n_rows M) && bool_decide (0 <= j < n_cols M)
  then at_ M i j else 0.

(** Spatial-domain linear convolution of [input] with [filter], at
    position [(a, b)] of the full result. *)
Definition linear (input filter : Mat) (a b : Z) : Z :=
  sumZ (n_rows filter) (λ k, sumZ (n_cols filter) (λ l,
    ext input (a - k) (b - l) * at_ filter k l)).

(** The positions at which the filter overlaps the input at all. *)
Definition direct_full (input filter : Mat) : Mat :=
  build (n_rows input + n_rows filter - 1) (n_cols input + n_cols filter - 1)
        (linear input filter).

(** The positions at which the filter lies inside the input. *)
Definition direct_valid (input filter : Mat) : Mat :=
  build (n_rows input - n_rows filter + 1) (n_cols input - n_cols filter + 1)
        (λ i j, linear input filter (n_rows filter - 1 + i)
                                    (n_cols filter - 1 + j)).

Definition direct (mode : BorderMode) (input filter : Mat) : Mat :=
  match mode with
  | ValidConvolution => direct_valid input filter
  | FullConvolution => direct_full input filter
  end.

(** The preconditions of a call: both operands are non-empty matrix
    objects, and in valid mode the filter is no larger than the input. *)
Definition nonempty (M : Mat) : Prop := 1 <= n_rows M ∧ 1 <= n_cols M.

Definition fits (mode : BorderMode) (input filter : Mat) : Prop :=
  match mode with
  | ValidConvolution =>
      n_rows filter <= n_rows input ∧ n_cols filter <= n_cols input
  | FullConvolution => True
  end.

Record pre (mode : BorderMode) (input filter : Mat) : Prop := mkPre {
  pre_input_wf : wf input;
  pre_filter_wf : wf filter;
  pre_input_nonempty : nonempty input;
  pre_filter_nonempty : nonempty filter;
  pre_fits : fits mode input filter
}.

(** ** Intermediate values of a call *)

(** The working copy of the input in valid mode. *)
Definition valid_inputPadded (padLastDim : bool) (input : Mat) : Mat :=
  if padLastDim
  then resize input (n_rows input) (Word.add (n_cols input) 1)
  else input.

(** The working shape of the full mode, as the source computes it. *)
Definition full_outputRows (input filter : Mat) : Z :=
  Word.add (n_rows input) (Word.mul 2 (Word.sub (n_rows filter) 1)).

Definition full_outputCols (padLastDim : bool) (input filter : Mat) : Z :=
  let outputCols :=
    Word.add (n_cols input) (Word.mul 2 (Word.sub (n_cols filter) 1)) in
  if padLastDim then Word.add outputCols 1 else outputCols.

(** The working copy of the input in full mode. *)
Definition full_inputPadded (padLastDim : bool) (input filter : Mat)
    : option Mat :=
  set_submat
    (zeros (full_outputRows input filter)
           (full_outputCols padLastDim input filter))
    (Word.sub (n_rows filter) 1) (Word.sub (n_cols filter) 1)
    (Word.sub (Word.add (Word.sub (n_rows filter) 1) (n_rows input)) 1)
    (Word.sub (Word.add (Word.sub (n_cols filter) 1) (n_cols input)) 1)
    input.

(** ** What is asked of a call *)

(** The property "no partial result": a call that returns leaves the
    complete convolution in the output, and a call that throws leaves
    the output as it found it. *)
Definition no_partial (mode : BorderMode) (pad : bool)
    (input filter output : ref) (σ : gmap ref Mat) : Prop :=
  match Convolution mode pad input filter output σ with
  | (σ', Returned _) =>
      ∃ I F, σ !! input = Some I ∧ σ !! filter = Some F
             ∧ σ' !! output = Some (direct mode I F)
  | (σ', Thrown _) => σ' !! output = σ !! output
  end.

(** A computation whose only effect on the store is assignment to [l]. *)
Definition writes_only {A} (l : ref) (m : Run A) : Prop :=
  ∀ σ, (m σ).1 = σ ∨ ∃ M, (m σ).1 = <[l := M]> σ.

(** ** Operands and stores of the examples *)

(** The matrix of ones of a given shape. *)
Definition ones (r c : Z) : Mat := build r c (λ _ _, 1).

(** The 3×3 input and the 2×2 filter of ones, and an empty output. *)
Definition example_store : gmap ref Mat :=
  {[ 0%nat := ones 3 3; 1%nat := ones 2 2; 2%nat := zeros 0 0 ]}.

(** The 1×1 filter that holds the value 1. *)
Definition identity_filter : Mat := mkMat 1 1 [1].

(** The store of the identity example. *)
Definition identity_store : gmap ref Mat :=
  {[ 0%nat := mkMat 2 3 [1; 2; 3; 4; 5; 6]; 1%nat := identity_filter;
     2%nat := zeros 0 0 ]}.

(** The store of the equal-size example. *)
Definition equal_size_store : gmap ref Mat :=
  {[ 0%nat := mkMat 2 2 [1; 2; 3; 4]; 1%nat := mkMat 2 2 [5; 6; 7; 8];
     2%nat := zeros 0 0 ]}.

(** A valid-mode call whose filter is larger than its input. *)
Definition oversized_store : gmap ref Mat :=
  {[ 0%nat := mkMat 1 1 [3]; 1%nat := ones 2 2; 2%nat := zeros 0 0 ]}.

(** ** Matrix algebra of the further properties *)

(** [a * X + b * Y] for two matrices of one shape, the shape of [X]. *)
Definition lincomb (a : Z) (X : Mat) (b : Z) (Y : Mat) : Mat :=
  build (n_rows X) (n_cols X) (λ i j, a * at_ X i j + b * at_ Y i j).

(** The store of the linearity example: two inputs of one shape and
    their combination [2 * X + 5 * Y]. *)
Definition linear_store : gmap ref Mat :=
  {[ 0%nat := ones 3 3; 1%nat := ones 2 2; 2%nat := zeros 0 0;
     3%nat := mkMat 3 3 [1; 2; 3; 4; 5; 6; 7; 8; 9];
     4%nat := lincomb 2 (ones 3 3) 5
                (mkMat 3 3 [1; 2; 3; 4; 5; 6; 7; 8; 9]) ]}.

(** The store of the filter-linearity example: two filters of one shape
    and their combination [3 * F - 2 * G]. *)
Definition filter_store : gmap ref Mat :=
  {[ 0%nat := mkMat 3 3 [1; 2; 3; 4; 5; 6; 7; 8; 9]; 1%nat := ones 2 2;
     2%nat := zeros 0 0; 3%nat := mkMat 2 2 [1; 0; 0; -1];
     4%nat := lincomb 3 (ones 2 2) (-2) (mkMat 2 2 [1; 0; 0; -1]) ]}.

(** * Properties *)

(** ** Sums *)

Lemma sumZ_nonpos n f : n <= 0 → sumZ n f = 0.
Proof. intros. unfold sumZ. by rewrite seqZ_nil. Qed.

Lemma sumZ_succ n f : 0 <= n → sumZ (n + 1) f = sumZ n f + f n.
Proof.
  intros Hn. unfold sumZ.
  rewrite seqZ_app, fmap_app, foldr_app by lia.
  rewrite (seqZ_cons _ 1), seqZ_nil by lia. simpl.
  generalize (f <$> seqZ 0 n) as l. intros l.
  replace (f (0 + n) + 0) with (f n) by (rewrite Z.add_0_r; f_equal; lia).
  induction l as [|x l IH]; simpl; [lia|]. rewrite IH. lia.
Qed.

(** Induction over an upper bound of a sum. *)
Lemma Z_bound_ind (P : Z → Prop) :
  P 0 → (∀ n, 0 <= n → P n → P (n + 1)) → ∀ n, 0 <= n → P n.
Proof.
  intros H0 HS n Hn. pattern n. apply natlike_ind; [done| |done].
  intros x Hx HP. unfold Z.succ. by apply HS.
Qed.

Lemma sumZ_ext n f g :
  (∀ k, 0 <= k < n → f k = g k) → sumZ n f = sumZ n g.
Proof.
  destruct (decide (n <= 0)) as [|Hn]; [intros; by rewrite !sumZ_nonpos|].
  revert f g. pattern n. apply Z_bound_ind; [done| |lia].
  intros m Hm IH f g Hfg. rewrite !sumZ_succ by done.
  rewrite (IH f g), Hfg by (try intros; try apply Hfg; lia). done.
Qed.

Lemma sumZ_zero n f : (∀ k, 0 <= k < n → f k = 0) → sumZ n f = 0.
Proof.
  destruct (decide (n <= 0)) as [|Hn]; [intros; by rewrite sumZ_nonpos|].
  pattern n. apply Z_bound_ind; [done| |lia].
  intros m Hm IH Hf. rewrite sumZ_succ, IH, Hf by (try intros; try apply Hf; lia).
  done.
Qed.

(** A sum whose terms vanish from [p] on stops at [p]. *)
Lemma sumZ_trunc p n f :
  0 <= p <= n → (∀ k, p <= k < n → f k = 0) → sumZ n f = sumZ p f.
Proof.
  intros [Hp Hpn]. replace n with (p + (n - p)) by lia.
  assert (0 <= n - p) as Hd by lia. revert Hd.
  generalize (n - p). intros d Hd. pattern d.
  apply Z_bound_ind; [by rewrite Z.add_0_r| |done].
  intros m Hm IH Hf. rewrite Z.add_assoc, sumZ_succ by lia.
  rewrite IH, Hf by (try intros; try apply Hf; lia). lia.
Qed.

Lemma sumZ_one f : sumZ 1 f = f 0.
Proof. rewrite (sumZ_succ 0), sumZ_nonpos by lia. done. Qed.

(** ** Matrices *)

Lemma n_rows_build r c f : n_rows (build r c f) = r.
Proof. done. Qed.

Lemma n_cols_build r c f : n_cols (build r c f) = c.
Proof. done. Qed.

Lemma length_build r c f : length (mem (build r c f)) = Z.to_nat (r * c).
Proof. unfold build; simpl. by rewrite length_fmap, length_seqZ. Qed.

(** Column-major position of an element, and back. *)
Lemma colmajor_lt r c i j : 0 <= i < r → 0 <= j < c → 0 <= i + j * r < r * c.
Proof. intros. nia. Qed.

Lemma colmajor_mod r i j : 0 <= i < r → (i + j * r) mod r = i.
Proof. intros. rewrite Z.mod_add by lia. apply Z.mod_small. lia. Qed.

Lemma colmajor_div r i j : 0 <= i < r → (i + j * r) / r = j.
Proof. intros. rewrite Z.div_add by lia. rewrite Z.div_small by lia. lia. Qed.

Lemma at_build r c f i j :
  0 <= i < r → 0 <= j < c → at_ (build r c f) i j = f i j.
Proof.
  intros Hi Hj. unfold at_, build; simpl.
  pose proof (colmajor_lt r c i j Hi Hj) as Hk.
  rewrite list_lookup_fmap, lookup_seqZ_lt by lia. simpl.
  rewrite Z2Nat.id, Z.add_0_l by lia.
  by rewrite colmajor_mod, colmajor_div.
Qed.

Lemma build_ext r c f g :
  0 <= r →
  (∀ i j, 0 <= i < r → 0 <= j < c → f i j = g i j) →
  build r c f = build r c g.
Proof.
  intros Hr Hfg. unfold build. f_equal.
  apply list_fmap_ext. intros n k [-> Hn]%lookup_seqZ.
  rewrite Z.add_0_l in *.
  assert (0 < r) by (destruct (decide (r = 0)) as [->|]; lia).
  apply Hfg.
  - apply Z.mod_pos_bound. lia.
  - split; [apply Z.div_pos; lia|]. apply Z.div_lt_upper_bound; lia.
Qed.

(** A well-formed matrix is determined by its shape and its elements. *)
Lemma build_at M :
  0 <= n_rows M → Z.of_nat (length (mem M)) = n_elem M →
  build (n_rows M) (n_cols M) (at_ M) = M.
Proof.
  destruct M as [r c l]. unfold n_elem; simpl. intros Hr Hl.
  unfold build. f_equal. apply list_eq. intros n.
  rewrite list_lookup_fmap.
  destruct (decide (Z.of_nat n < r * c)) as [Hn|Hn].
  - rewrite lookup_seqZ_lt by done. simpl. rewrite Z.add_0_l.
    assert (0 < r) by (destruct (decide (r = 0)) as [->|]; lia).
    unfold at_; simpl.
    replace (Z.of_nat n mod r + Z.of_nat n / r * r) with (Z.of_nat n)
      by (rewrite (Z.div_mod (Z.of_nat n) r) at 1 by lia; lia).
    rewrite Nat2Z.id.
    destruct (l !! n) eqn:E; [done|].
    apply lookup_ge_None in E. lia.
  - rewrite lookup_seqZ_ge by lia. simpl. symmetry.
    apply lookup_ge_None. lia.
Qed.

Lemma wf_build r c f :
  0 <= r → 0 <= c → min_sizeof_eT * (r * c) < Word.modulus →
  wf (build r c f).
Proof.
  intros. split; unfold n_elem; simpl; try done.
  rewrite length_fmap, length_seqZ. nia.
Qed.

(** ** Machine words *)

Lemma wrap_small z : Word.in_range z → Word.wrap z = z.
Proof. intros. by apply Z.mod_small. Qed.

Lemma modulus_eq : Word.modulus = 18446744073709551616.
Proof. reflexivity. Qed.

(** A shape count of a non-empty matrix object is far from the word limit. *)
Lemma wf_rows_small M :
  wf M → nonempty M → 1 <= n_rows M < 2 ^ 62.
Proof.
  intros [? ? _ Hfit] [? ?]. unfold n_elem, min_sizeof_eT in *.
  rewrite modulus_eq in Hfit. nia.
Qed.

Lemma wf_cols_small M :
  wf M → nonempty M → 1 <= n_cols M < 2 ^ 62.
Proof.
  intros [? ? _ Hfit] [? ?]. unfold n_elem, min_sizeof_eT in *.
  rewrite modulus_eq in Hfit. nia.
Qed.

(** Word operations of the source on values that stay in range. *)
Ltac word_simpl :=
  unfold Word.add, Word.sub, Word.mul in *;
  repeat match goal with
  | |- context [Word.wrap ?z] =>
      rewrite (wrap_small z)
        by (unfold Word.in_range; rewrite modulus_eq; lia)
  end.

(** ** The Armadillo operations *)

Lemma at_resize M r c i j :
  0 <= i < r → 0 <= j < c →
  at_ (resize M r c) i j =
    if bool_decide (i < n_rows M) && bool_decide (j < n_cols M)
    then at_ M i j else 0.
Proof. intros. unfold resize. by rewrite at_build. Qed.

Lemma ext_inside M i j :
  0 <= i < n_rows M → 0 <= j < n_cols M → ext M i j = at_ M i j.
Proof.
  intros. unfold ext.
  by rewrite !bool_decide_eq_true_2.
Qed.

Lemma ext_outside M i j :
  ¬ (0 <= i < n_rows M ∧ 0 <= j < n_cols M) → ext M i j = 0.
Proof.
  intros Hout. unfold ext.
  destruct (bool_decide_reflect (0 <= i < n_rows M)),
           (bool_decide_reflect (0 <= j < n_cols M)); simpl; tauto.
Qed.

(** Growing a matrix pads it with zeros. *)
Lemma at_resize_grow M r c i j :
  n_rows M <= r → n_cols M <= c → 0 <= i < r → 0 <= j < c →
  at_ (resize M r c) i j = ext M i j.
Proof.
  intros. rewrite at_resize by done. unfold ext.
  destruct (bool_decide_reflect (i < n_rows M)),
           (bool_decide_reflect (j < n_cols M)); simpl;
    repeat case_bool_decide; simpl; done || lia.
Qed.

Lemma submat_Some M r1 c1 r2 c2 :
  r1 <= r2 < n_rows M → c1 <= c2 < n_cols M →
  submat M r1 c1 r2 c2 =
    Some (build (r2 - r1 + 1) (c2 - c1 + 1)
                (λ i j, at_ M (r1 + i) (c1 + j))).
Proof.
  intros. unfold submat, submat_ok.
  by rewrite !bool_decide_eq_false_2 by lia.
Qed.

Lemma submat_ok_iff M r1 c1 r2 c2 :
  submat_ok M r1 c1 r2 c2 = true ↔
  r1 <= r2 < n_rows M ∧ c1 <= c2 < n_cols M.
Proof.
  unfold submat_ok. rewrite negb_true_iff, !orb_false_iff.
  rewrite !bool_decide_eq_false. lia.
Qed.

Lemma set_submat_Some M r1 c1 r2 c2 X :
  r1 <= r2 < n_rows M → c1 <= c2 < n_cols M →
  n_rows X = r2 - r1 + 1 → n_cols X = c2 - c1 + 1 →
  set_submat M r1 c1 r2 c2 X =
    Some (build (n_rows M) (n_cols M) (λ i j,
      if bool_decide (r1 <= i <= r2) && bool_decide (c1 <= j <= c2)
      then at_ X (i - r1) (j - c1) else at_ M i j)).
Proof.
  intros ?? HrX HcX. unfold set_submat.
  assert (submat_ok M r1 c1 r2 c2 = true) as -> by by apply submat_ok_iff.
  by rewrite !bool_decide_eq_true_2.
Qed.

(** The input placed at offset [(r1, c1)] of a zero buffer. *)
Lemma at_placed X R C r1 c1 i j :
  0 <= r1 → 0 <= c1 → 0 <= i < R → 0 <= j < C →
  at_ (build R C (λ i j,
         if bool_decide (r1 <= i <= r1 + n_rows X - 1)
            && bool_decide (c1 <= j <= c1 + n_cols X - 1)
         then at_ X (i - r1) (j - c1) else at_ (zeros R C) i j)) i j
  = ext X (i - r1) (j - c1).
Proof.
  intros. rewrite at_build by done. unfold ext, zeros.
  repeat case_bool_decide; simpl; try done; try lia.
  all: by rewrite at_build.
Qed.

(** ** The transform product on a padded filter *)

Lemma n_rows_circular A B : n_rows (circular A B) = n_rows A.
Proof. done. Qed.

Lemma n_cols_circular A B : n_cols (circular A B) = n_cols A.
Proof. done. Qed.

(** Inside the window that starts at the last row and column of the
    filter, the circular convolution with the padded filter does not wrap
    around: it is the sum over the filter alone. *)
Lemma circular_window A F a b :
  1 <= n_rows F <= n_rows A → 1 <= n_cols F <= n_cols A →
  n_rows F - 1 <= a < n_rows A → n_cols F - 1 <= b < n_cols A →
  at_ (circular A (resize F (n_rows A) (n_cols A))) a b =
    sumZ (n_rows F) (λ k, sumZ (n_cols F) (λ l,
      at_ A (a - k) (b - l) * at_ F k l)).
Proof.
  intros Hr Hc Ha Hb. unfold circular. rewrite at_build by lia.
  rewrite (sumZ_trunc (n_rows F)); [|lia|].
  - apply sumZ_ext. intros k Hk.
    rewrite (sumZ_trunc (n_cols F)); [|lia|].
    + apply sumZ_ext. intros l Hl.
      rewrite at_resize_grow, ext_inside by lia.
      by rewrite !Z.mod_small by lia.
    + intros l Hl. rewrite at_resize_grow, ext_outside by lia. lia.
  - intros k Hk. apply sumZ_zero. intros l Hl.
    rewrite at_resize_grow, ext_outside by lia. lia.
Qed.

(** ** Valid mode *)

Lemma valid_inputPadded_shape pad I :
  wf I → nonempty I →
  n_rows (valid_inputPadded pad I) = n_rows I ∧
  n_cols I <= n_cols (valid_inputPadded pad I) <= n_cols I + 1.
Proof.
  intros HI HnI. pose proof (wf_cols_small I HI HnI).
  destruct pad; simpl; [|lia]. word_simpl. lia.
Qed.

Lemma at_valid_inputPadded pad I i j :
  wf I → nonempty I →
  0 <= i < n_rows I → 0 <= j < n_cols (valid_inputPadded pad I) →
  at_ (valid_inputPadded pad I) i j = ext I i j.
Proof.
  intros HI HnI Hi Hj.
  pose proof (valid_inputPadded_shape pad I HI HnI) as [_ Hc].
  destruct pad; simpl in *.
  - apply at_resize_grow; lia.
  - by rewrite ext_inside.
Qed.

Lemma valid_extract pad I F :
  pre ValidConvolution I F →
  let IP := valid_inputPadded pad I in
  submat (circular IP (resize F (n_rows IP) (n_cols IP)))
    (Word.sub (n_rows F) 1) (Word.sub (n_cols F) 1)
    (Word.sub (n_rows I) 1) (Word.sub (n_cols I) 1)
  = Some (direct_valid I F).
Proof.
  intros [HI HF HnI HnF [Hfr Hfc]] IP.
  pose proof (wf_rows_small I HI HnI). pose proof (wf_cols_small I HI HnI).
  pose proof (wf_rows_small F HF HnF). pose proof (wf_cols_small F HF HnF).
  pose proof (valid_inputPadded_shape pad I HI HnI) as [Hr Hc].
  subst IP. word_simpl.
  rewrite submat_Some by (rewrite ?n_rows_circular, ?n_cols_circular; lia).
  f_equal. unfold direct_valid.
  replace (n_rows I - 1 - (n_rows F - 1) + 1)
    with (n_rows I - n_rows F + 1) by lia.
  replace (n_cols I - 1 - (n_cols F - 1) + 1)
    with (n_cols I - n_cols F + 1) by lia.
  apply build_ext; [lia|]. intros i j Hi Hj.
  rewrite circular_window by lia.
  unfold linear. apply sumZ_ext. intros k Hk. apply sumZ_ext. intros l Hl.
  by rewrite at_valid_inputPadded by (done || lia).
Qed.

Lemma fft_product_Some A B :
  n_rows A = n_rows B → n_cols A = n_cols B →
  fft_product A B = Some (circular A B).
Proof. intros. unfold fft_product. by rewrite !bool_decide_eq_true_2. Qed.

(** Steps of a run. *)
Lemma run_read {B} l (k : Mat → Run B) σ M :
  σ !! l = Some M → (read l ≫= k) σ = k M σ.
Proof. intros H. unfold mbind, Run_bind, read. by rewrite H. Qed.

Lemma run_checked {A B} (o : option A) (k : A → Run B) σ a :
  o = Some a → (checked o ≫= k) σ = k a σ.
Proof. intros ->. done. Qed.

Lemma run_checked_None {A B} (o : option A) (k : A → Run B) σ :
  o = None → (checked o ≫= k) σ = (σ, Thrown logic_error).
Proof. intros ->. done. Qed.

Lemma run_assign {B} l M (k : unit → Run B) σ :
  (assign l M ≫= k) σ = k tt (<[l := M]> σ).
Proof. done. Qed.

(** The operands of a call are read, and the working copies named. *)
Ltac enter_valid pad I F :=
  unfold Convolution_valid;
  rewrite (run_read _ _ _ I), (run_read _ _ _ F) by done;
  cbv zeta; fold (valid_inputPadded pad I).

Ltac enter_full pad I F :=
  unfold Convolution_full;
  rewrite (run_read _ _ _ I), (run_read _ _ _ F) by done;
  cbv zeta; fold (full_outputRows I F) (full_outputCols pad I F);
  fold (full_inputPadded pad I F).

(** The product [P] is assigned to the output, and the three objects are
    read again for the extraction. *)
Ltac product_assigned P I F :=
  rewrite (run_checked _ _ _ P), run_assign
    by (done || by apply fft_product_Some);
  rewrite (run_read _ _ _ P) by apply lookup_insert_eq;
  rewrite (run_read _ _ _ F), (run_read _ _ _ I)
    by by rewrite lookup_insert_ne.

(** A call of the valid mode within its preconditions, on an output
    object distinct from the operands. *)
Lemma Convolution_valid_run pad input filter output σ I F :
  σ !! input = Some I → σ !! filter = Some F →
  output ≠ input → output ≠ filter →
  pre ValidConvolution I F →
  Convolution_valid pad input filter output σ =
    (<[output := direct_valid I F]> σ, Returned tt).
Proof.
  intros HI HF Hoi Hof Hpre. enter_valid pad I F.
  product_assigned (circular (valid_inputPadded pad I)
    (resize F (n_rows (valid_inputPadded pad I))
              (n_cols (valid_inputPadded pad I)))) I F.
  rewrite (run_checked _ _ _ _ (valid_extract pad I F Hpre)).
  unfold assign. by rewrite insert_insert_eq.
Qed.

(** ** Full mode *)

Lemma full_outputRows_eq I F :
  pre FullConvolution I F →
  full_outputRows I F = n_rows I + 2 * (n_rows F - 1).
Proof.
  intros [HI HF HnI HnF _].
  pose proof (wf_rows_small I HI HnI). pose proof (wf_rows_small F HF HnF).
  unfold full_outputRows. by word_simpl.
Qed.

Lemma full_outputCols_eq pad I F :
  pre FullConvolution I F →
  full_outputCols pad I F =
    n_cols I + 2 * (n_cols F - 1) + (if pad then 1 else 0).
Proof.
  intros [HI HF HnI HnF _].
  pose proof (wf_cols_small I HI HnI). pose proof (wf_cols_small F HF HnF).
  unfold full_outputCols. destruct pad; word_simpl; lia.
Qed.

(** The placement of the input succeeds, and the working copy is the
    input shifted by the filter shape less one, zero elsewhere. *)
Lemma full_inputPadded_Some pad I F :
  pre FullConvolution I F →
  ∃ P, full_inputPadded pad I F = Some P
     ∧ n_rows P = full_outputRows I F
     ∧ n_cols P = full_outputCols pad I F
     ∧ ∀ i j, 0 <= i < n_rows P → 0 <= j < n_cols P →
         at_ P i j = ext I (i - (n_rows F - 1)) (j - (n_cols F - 1)).
Proof.
  intros Hpre. pose proof Hpre as [HI HF HnI HnF _].
  pose proof (wf_rows_small I HI HnI). pose proof (wf_cols_small I HI HnI).
  pose proof (wf_rows_small F HF HnF). pose proof (wf_cols_small F HF HnF).
  pose proof (full_outputRows_eq I F Hpre) as HR.
  pose proof (full_outputCols_eq pad I F Hpre) as HC.
  unfold full_inputPadded. word_simpl.
  assert (0 <= (if pad then 1 else 0) <= 1) by (destruct pad; lia).
  rewrite set_submat_Some by (unfold zeros; simpl; lia).
  eexists. split; [done|]. split; [done|]. split; [done|].
  unfold zeros at 1 2; simpl. intros i j Hi Hj.
  apply (at_placed I); lia.
Qed.

Lemma full_extract pad I F P :
  pre FullConvolution I F →
  full_inputPadded pad I F = Some P →
  submat (circular P (resize F (full_outputRows I F)
                               (full_outputCols pad I F)))
    (Word.sub (n_rows F) 1) (Word.sub (n_cols F) 1)
    (Word.sub (Word.add (Word.mul 2 (Word.sub (n_rows F) 1)) (n_rows I)) 1)
    (Word.sub (Word.add (Word.mul 2 (Word.sub (n_cols F) 1)) (n_cols I)) 1)
  = Some (direct_full I F).
Proof.
  intros Hpre HP. pose proof Hpre as [HI HF HnI HnF _].
  destruct (full_inputPadded_Some pad I F Hpre) as (P' & HP' & HrP & HcP & Hat).
  assert (P' = P) as -> by congruence.
  pose proof (wf_rows_small I HI HnI). pose proof (wf_cols_small I HI HnI).
  pose proof (wf_rows_small F HF HnF). pose proof (wf_cols_small F HF HnF).
  rewrite <- HrP, <- HcP.
  rewrite (full_outputRows_eq I F Hpre) in HrP.
  rewrite (full_outputCols_eq pad I F Hpre) in HcP.
  assert (0 <= (if pad then 1 else 0) <= 1) by (destruct pad; lia).
  word_simpl.
  rewrite submat_Some by (rewrite ?n_rows_circular, ?n_cols_circular; lia).
  f_equal. unfold direct_full.
  replace (2 * (n_rows F - 1) + n_rows I - 1 - (n_rows F - 1) + 1)
    with (n_rows I + n_rows F - 1) by lia.
  replace (2 * (n_cols F - 1) + n_cols I - 1 - (n_cols F - 1) + 1)
    with (n_cols I + n_cols F - 1) by lia.
  apply build_ext; [lia|]. intros a b Ha Hb.
  rewrite circular_window by lia.
  unfold linear. apply sumZ_ext. intros k Hk. apply sumZ_ext. intros l Hl.
  rewrite Hat by lia. do 2 f_equal; lia.
Qed.

(** A call of the full mode within its preconditions, on an output
    object distinct from the operands. *)
Lemma Convolution_full_run pad input filter output σ I F :
  σ !! input = Some I → σ !! filter = Some F →
  output ≠ input → output ≠ filter →
  pre FullConvolution I F →
  Convolution_full pad input filter output σ =
    (<[output := direct_full I F]> σ, Returned tt).
Proof.
  intros HI HF Hoi Hof Hpre. enter_full pad I F.
  destruct (full_inputPadded_Some pad I F Hpre) as (P & HP & HrP & HcP & _).
  rewrite (run_checked _ _ _ _ HP).
  product_assigned (circular P
    (resize F (full_outputRows I F) (full_outputCols pad I F))) I F.
  rewrite (run_checked _ _ _ _ (full_extract pad I F P Hpre HP)).
  unfold assign. by rewrite insert_insert_eq.
Qed.

(** A call of either mode within its preconditions. *)
Lemma Convolution_run mode pad input filter output σ I F :
  σ !! input = Some I → σ !! filter = Some F →
  output ≠ input → output ≠ filter →
  pre mode I F →
  Convolution mode pad input filter output σ =
    (<[output := direct mode I F]> σ, Returned tt).
Proof.
  destruct mode; simpl.
  - apply Convolution_valid_run.
  - apply Convolution_full_run.
Qed.

(** Closed preconditions are settled by evaluation. *)
Ltac by_eval := repeat split; vm_compute; (done || congruence || lia).

(** ** Equivalence to the direct convolution *)

(** C1. Within the preconditions (non-empty operands, and in valid mode a
    filter no larger than the input), the output of [Convolution] is the
    direct spatial-domain linear convolution restricted to the window of
    the mode: the fully overlapping positions in valid mode, every
    overlapping position in full mode.  Elements are exact here, so "up
    to the rounding of the transform round trip" is equality. *)
Theorem Convolution_equals_direct mode pad input filter output σ I F :
  σ !! input = Some I → σ !! filter = Some F →
  output ≠ input → output ≠ filter →
  pre mode I F →
  ∃ O,
    Convolution mode pad input filter output σ
      = (<[output := O]> σ, Returned tt)
    ∧ O = direct mode I F
    ∧ ∀ i j, 0 <= i < n_rows O → 0 <= j < n_cols O →
        at_ O i j =
          match mode with
          | ValidConvolution =>
              linear I F (n_rows F - 1 + i) (n_cols F - 1 + j)
          | FullConvolution => linear I F i j
          end.
Proof.
  intros HI HF Hoi Hof Hpre. exists (direct mode I F).
  split; [by apply Convolution_run|]. split; [done|].
  intros i j Hi Hj.
  destruct mode; unfold direct, direct_valid, direct_full in *;
    rewrite n_rows_build, n_cols_build in *; by rewrite at_build.
Qed.

Lemma Convolution_equals_direct_witness :
  ∃ O,
    Convolution ValidConvolution true 0%nat 1%nat 2%nat example_store
      = (<[2%nat := O]> example_store, Returned tt)
    ∧ O = direct ValidConvolution (ones 3 3) (ones 2 2)
    ∧ ∀ i j, 0 <= i < n_rows O → 0 <= j < n_cols O →
        at_ O i j = linear (ones 3 3) (ones 2 2) (2 - 1 + i) (2 - 1 + j).
Proof.
  apply (Convolution_equals_direct ValidConvolution true 0%nat 1%nat 2%nat
           example_store (ones 3 3) (ones 2 2)); by_eval.
Defined.

(** ** Output shapes *)

(** C2. In valid mode, an input of shape [(m, n)] and a filter of shape
    [(p, q)] with [p <= m] and [q <= n] give an output of shape exactly
    [(m - p + 1, n - q + 1)], whatever [padLastDim] is. *)
Theorem valid_output_shape pad input filter output σ I F :
  σ !! input = Some I → σ !! filter = Some F →
  output ≠ input → output ≠ filter →
  pre ValidConvolution I F →
  ∃ σ' O,
    Convolution ValidConvolution pad input filter output σ
      = (σ', Returned tt)
    ∧ σ' !! output = Some O
    ∧ n_rows O = n_rows I - n_rows F + 1
    ∧ n_cols O = n_cols I - n_cols F + 1.
Proof.
  intros HI HF Hoi Hof Hpre.
  exists (<[output := direct_valid I F]> σ), (direct_valid I F).
  split; [by apply Convolution_valid_run|].
  by rewrite lookup_insert_eq.
Qed.

Lemma valid_output_shape_witness :
  ∃ σ' O,
    Convolution ValidConvolution true 0%nat 1%nat 2%nat example_store
      = (σ', Returned tt)
    ∧ σ' !! 2%nat = Some O
    ∧ n_rows O = 3 - 2 + 1
    ∧ n_cols O = 3 - 2 + 1.
Proof.
  apply (valid_output_shape true 0%nat 1%nat 2%nat example_store
           (ones 3 3) (ones 2 2)); by_eval.
Defined.

(** C3. In full mode, an input of shape [(m, n)] and a non-empty filter
    of shape [(p, q)], of any size relative to the input, give an output
    of shape exactly [(m + p - 1, n + q - 1)], whatever [padLastDim]
    is. *)
Theorem full_output_shape pad input filter output σ I F :
  σ !! input = Some I → σ !! filter = Some F →
  output ≠ input → output ≠ filter →
  wf I → wf F → nonempty I → nonempty F →
  ∃ σ' O,
    Convolution FullConvolution pad input filter output σ
      = (σ', Returned tt)
    ∧ σ' !! output = Some O
    ∧ n_rows O = n_rows I + n_rows F - 1
    ∧ n_cols O = n_cols I + n_cols F - 1.
Proof.
  intros HI HF Hoi Hof HwI HwF HnI HnF.
  exists (<[output := direct_full I F]> σ), (direct_full I F).
  split; [by apply Convolution_full_run|].
  by rewrite lookup_insert_eq.
Qed.

(** The filter of the witness is larger than the input. *)
Lemma full_output_shape_witness :
  ∃ σ' O,
    Convolution FullConvolution true 1%nat 0%nat 2%nat example_store
      = (σ', Returned tt)
    ∧ σ' !! 2%nat = Some O
    ∧ n_rows O = 2 + 3 - 1
    ∧ n_cols O = 2 + 3 - 1.
Proof.
  apply (full_output_shape true 1%nat 0%nat 2%nat example_store
           (ones 2 2) (ones 3 3)); by_eval.
Defined.

(** ** Independence of [padLastDim] *)

(** C4. Within the preconditions and in both modes, the engine with
    [padLastDim = true] ends in the same store, with the same output
    values and shape, as the engine with [padLastDim = false]; the
    working buffers of the two differ by one column and in nothing
    else. *)
Theorem padLastDim_invariance mode input filter output σ I F :
  σ !! input = Some I → σ !! filter = Some F →
  output ≠ input → output ≠ filter →
  pre mode I F →
  Convolution mode true input filter output σ
    = Convolution mode false input filter output σ
  ∧ match mode with
    | ValidConvolution =>
        n_rows (valid_inputPadded true I) = n_rows (valid_inputPadded false I)
        ∧ n_cols (valid_inputPadded true I)
            = n_cols (valid_inputPadded false I) + 1
    | FullConvolution =>
        full_outputCols true I F = full_outputCols false I F + 1
    end.
Proof.
  intros HI HF Hoi Hof Hpre. split.
  - by rewrite !(Convolution_run mode _ input filter output σ I F).
  - destruct mode.
    + destruct Hpre as [HwI _ HnI _ _].
      pose proof (wf_cols_small I HwI HnI). simpl. by word_simpl.
    + rewrite !full_outputCols_eq by done. lia.
Qed.

Lemma padLastDim_invariance_witness :
  Convolution FullConvolution true 0%nat 1%nat 2%nat example_store
    = Convolution FullConvolution false 0%nat 1%nat 2%nat example_store
  ∧ full_outputCols true (ones 3 3) (ones 2 2)
      = full_outputCols false (ones 3 3) (ones 2 2) + 1.
Proof.
  apply (padLastDim_invariance FullConvolution 0%nat 1%nat 2%nat
           example_store (ones 3 3) (ones 2 2)); by_eval.
Defined.

(** ** Failing calls *)

(** The valid-mode call with a 2×2 filter on a 1×1 input throws at the
    extraction of line 67, after line 62 has assigned the working-size
    product to the output. *)
Lemma oversized_filter_run :
  Convolution ValidConvolution false 0%nat 1%nat 2%nat oversized_store
  = (<[2%nat := mkMat 1 1 [3]]> oversized_store, Thrown logic_error).
Proof. by vm_compute. Qed.

(** C5, as stated, fails: the call above throws and leaves the
    un-extracted working-size buffer in the output. *)
Lemma no_partial_counterexample :
  ¬ no_partial ValidConvolution false 0%nat 1%nat 2%nat oversized_store.
Proof.
  unfold no_partial. rewrite oversized_filter_run.
  vm_compute. discriminate.
Qed.

(** ** The identity filter *)

Lemma linear_identity I a b : linear I identity_filter a b = ext I a b.
Proof.
  unfold linear, identity_filter; simpl. rewrite !sumZ_one.
  rewrite !Z.sub_0_r. unfold at_; simpl. lia.
Qed.

Lemma pre_identity mode I : wf I → nonempty I → pre mode I identity_filter.
Proof.
  intros HI HnI.
  split; [done | by_eval | done | by_eval |].
  destruct mode; [|done]. destruct HnI. split; simpl; lia.
Qed.

Lemma direct_identity mode I :
  wf I → direct mode I identity_filter = I.
Proof.
  intros [Hr Hc Hm _]. rewrite <- (build_at I Hr Hm) at 2.
  destruct mode; unfold direct, direct_valid, direct_full;
    unfold identity_filter at 1 2; simpl n_rows; simpl n_cols.
  - replace (n_rows I - 1 + 1) with (n_rows I) by lia.
    replace (n_cols I - 1 + 1) with (n_cols I) by lia.
    apply build_ext; [done|]. intros i j Hi Hj.
    rewrite linear_identity, ext_inside by lia. f_equal; lia.
  - replace (n_rows I + 1 - 1) with (n_rows I) by lia.
    replace (n_cols I + 1 - 1) with (n_cols I) by lia.
    apply build_ext; [done|]. intros i j Hi Hj.
    by rewrite linear_identity, ext_inside.
Qed.

(** C6. Convolving a non-empty matrix with the 1×1 filter of value 1
    gives the matrix back, in valid mode and in full mode; so in this
    case the full-mode output is the valid-mode output. *)
Theorem identity_filter_reproduces_input pad input filter output σ I :
  σ !! input = Some I → σ !! filter = Some identity_filter →
  output ≠ input → output ≠ filter →
  wf I → nonempty I →
  Convolution ValidConvolution pad input filter output σ
    = (<[output := I]> σ, Returned tt)
  ∧ Convolution FullConvolution pad input filter output σ
    = (<[output := I]> σ, Returned tt)
  ∧ Convolution FullConvolution pad input filter output σ
    = Convolution ValidConvolution pad input filter output σ.
Proof.
  intros HI HF Hoi Hof HwI HnI.
  pose proof (λ mode, Convolution_run mode pad input filter output σ I
    identity_filter HI HF Hoi Hof (pre_identity mode I HwI HnI)) as Hrun.
  rewrite !Hrun, !direct_identity by done. done.
Qed.

Lemma identity_filter_reproduces_input_witness :
  Convolution ValidConvolution true 0%nat 1%nat 2%nat identity_store
    = (<[2%nat := mkMat 2 3 [1; 2; 3; 4; 5; 6]]> identity_store, Returned tt)
  ∧ Convolution FullConvolution true 0%nat 1%nat 2%nat identity_store
    = (<[2%nat := mkMat 2 3 [1; 2; 3; 4; 5; 6]]> identity_store, Returned tt)
  ∧ Convolution FullConvolution true 0%nat 1%nat 2%nat identity_store
    = Convolution ValidConvolution true 0%nat 1%nat 2%nat identity_store.
Proof.
  apply (identity_filter_reproduces_input true 0%nat 1%nat 2%nat
           identity_store (mkMat 2 3 [1; 2; 3; 4; 5; 6])); by_eval.
Defined.

(** ** The matrices of ones *)

(** C7. For the 3×3 input of ones and the 2×2 filter of ones, the
    valid-mode output is the 2×2 matrix whose entries are 4, and the
    full-mode output is the 4×4 matrix with 1 at the corners, 2 on the
    edges and 4 in the centre. *)
Theorem ones_scenario pad input filter output σ :
  σ !! input = Some (ones 3 3) → σ !! filter = Some (ones 2 2) →
  output ≠ input → output ≠ filter →
  Convolution ValidConvolution pad input filter output σ
    = (<[output := mkMat 2 2 [4; 4;
                              4; 4]]> σ, Returned tt)
  ∧ Convolution FullConvolution pad input filter output σ
    = (<[output := mkMat 4 4 [1; 2; 2; 1;
                              2; 4; 4; 2;
                              2; 4; 4; 2;
                              1; 2; 2; 1]]> σ, Returned tt).
Proof.
  intros HI HF Hoi Hof.
  rewrite (Convolution_run ValidConvolution pad input filter output σ
             (ones 3 3) (ones 2 2)) by (done || by_eval).
  rewrite (Convolution_run FullConvolution pad input filter output σ
             (ones 3 3) (ones 2 2)) by (done || by_eval).
  done.
Qed.

Lemma ones_scenario_witness :
  Convolution ValidConvolution false 0%nat 1%nat 2%nat example_store
    = (<[2%nat := mkMat 2 2 [4; 4; 4; 4]]> example_store, Returned tt)
  ∧ Convolution FullConvolution false 0%nat 1%nat 2%nat example_store
    = (<[2%nat := mkMat 4 4 [1; 2; 2; 1; 2; 4; 4; 2;
                             2; 4; 4; 2; 1; 2; 2; 1]]> example_store,
       Returned tt).
Proof.
  apply (ones_scenario false 0%nat 1%nat 2%nat example_store); by_eval.
Defined.

(** ** A filter as large as the input *)

Lemma build_1_1 f : build 1 1 f = mkMat 1 1 [f 0 0].
Proof. reflexivity. Qed.

(** C8. In valid mode a filter of the shape of the input is accepted:
    the call returns, and the output is the 1×1 matrix that holds the
    one fully overlapping value of the convolution, the sum of
    [input(m-1-k, n-1-l) * filter(k, l)] over the whole filter. *)
Theorem equal_size_filter pad input filter output σ I F :
  σ !! input = Some I → σ !! filter = Some F →
  output ≠ input → output ≠ filter →
  wf I → wf F → nonempty I →
  n_rows F = n_rows I → n_cols F = n_cols I →
  Convolution ValidConvolution pad input filter output σ
    = (<[output :=
          mkMat 1 1 [sumZ (n_rows I) (λ k, sumZ (n_cols I) (λ l,
            at_ I (n_rows I - 1 - k) (n_cols I - 1 - l) * at_ F k l))]]> σ,
       Returned tt).
Proof.
  intros HI HF Hoi Hof HwI HwF HnI Hr Hc.
  assert (pre ValidConvolution I F) as Hpre.
  { split; try done; unfold nonempty in *; simpl; lia. }
  rewrite (Convolution_run ValidConvolution pad input filter output σ I F)
    by done.
  unfold direct, direct_valid. rewrite Hr, Hc.
  replace (n_rows I - n_rows I + 1) with 1 by lia.
  replace (n_cols I - n_cols I + 1) with 1 by lia.
  rewrite build_1_1. do 4 f_equal.
  unfold linear. rewrite Hr, Hc.
  apply sumZ_ext. intros k Hk. apply sumZ_ext. intros l Hl.
  rewrite ext_inside by lia. do 2 f_equal; lia.
Qed.

Lemma equal_size_filter_witness :
  Convolution ValidConvolution true 0%nat 1%nat 2%nat equal_size_store
    = (<[2%nat := mkMat 1 1 [60]]> equal_size_store, Returned tt).
Proof.
  apply (equal_size_filter true 0%nat 1%nat 2%nat equal_size_store
           (mkMat 2 2 [1; 2; 3; 4]) (mkMat 2 2 [5; 6; 7; 8])); by_eval.
Defined.

(** ** Effects of a call *)

Lemma writes_only_read l l' : writes_only l (read l').
Proof. intros σ. left. unfold read. by destruct (σ !! l'). Qed.

Lemma writes_only_checked {A} l (o : option A) : writes_only l (checked o).
Proof. intros σ. left. by destruct o. Qed.

Lemma writes_only_assign l M : writes_only l (assign l M).
Proof. intros σ. right. by exists M. Qed.

Lemma writes_only_bind {A B} l (m : Run A) (k : A → Run B) :
  writes_only l m → (∀ a, writes_only l (k a)) → writes_only l (m ≫= k).
Proof.
  intros Hm Hk σ. unfold mbind, Run_bind.
  specialize (Hm σ). destruct (m σ) as [σ1 [a|e]]; simpl in *; [|done].
  destruct (Hk a σ1) as [->|[M ->]]; [done|]. right.
  destruct Hm as [->|[M' ->]]; [by exists M|].
  exists M. by rewrite insert_insert_eq.
Qed.

Ltac writes_only_tac :=
  repeat first
    [ apply writes_only_read | apply writes_only_checked
    | apply writes_only_assign
    | apply writes_only_bind; [|intros ?] ].

Lemma Convolution_writes_only mode pad input filter output :
  writes_only output (Convolution mode pad input filter output).
Proof.
  destruct mode; unfold Convolution, Convolution_valid, Convolution_full;
    writes_only_tac.
Qed.

Lemma run_read_None {B} l (k : Mat → Run B) σ :
  σ !! l = None → (read l ≫= k) σ = (σ, Thrown no_object).
Proof. intros H. unfold mbind, Run_bind, read. by rewrite H. Qed.

(** What a call does is a function of the matrices its operands denote:
    on a distinct output, the way it ends [r] and the matrix [w] it
    leaves in the output, if it writes one, are the same in every store
    in which the operands denote [oI] and [oF]. *)
Lemma Convolution_effect mode pad input filter output oI oF :
  output ≠ input → output ≠ filter →
  ∃ (r : outcome unit) (w : option Mat), ∀ σ,
    σ !! input = oI → σ !! filter = oF →
    Convolution mode pad input filter output σ =
      (match w with Some W => <[output := W]> σ | None => σ end, r).
Proof.
  intros Hoi Hof.
  destruct oI as [I|];
    [|exists (Thrown no_object), None; intros σ HI HF;
      destruct mode; simpl; unfold Convolution_valid, Convolution_full;
      by rewrite run_read_None].
  destruct oF as [F|];
    [|exists (Thrown no_object), None; intros σ HI HF;
      destruct mode; simpl; unfold Convolution_valid, Convolution_full;
      by rewrite (run_read _ _ _ I), run_read_None].
  destruct mode; simpl.
  - destruct (fft_product (valid_inputPadded pad I)
        (resize F (n_rows (valid_inputPadded pad I))
                  (n_cols (valid_inputPadded pad I)))) as [P|] eqn:HP;
      [destruct (submat P
         (Word.sub (n_rows F) 1) (Word.sub (n_cols F) 1)
         (Word.sub (n_rows I) 1) (Word.sub (n_cols I) 1)) as [W|] eqn:HW|];
      [ exists (Returned tt), (Some W)
      | exists (Thrown logic_error), (Some P)
      | exists (Thrown logic_error), None ];
      intros σ HI HF; enter_valid pad I F.
    + product_assigned P I F. rewrite (run_checked _ _ _ W) by done.
      unfold assign. by rewrite insert_insert_eq.
    + product_assigned P I F. by rewrite run_checked_None.
    + by rewrite run_checked_None.
  - destruct (full_inputPadded pad I F) as [Q|] eqn:HQ;
      [destruct (fft_product Q
         (resize F (full_outputRows I F) (full_outputCols pad I F)))
         as [P|] eqn:HP;
       [destruct (submat P
          (Word.sub (n_rows F) 1) (Word.sub (n_cols F) 1)
          (Word.sub (Word.add (Word.mul 2 (Word.sub (n_rows F) 1))
                              (n_rows I)) 1)
          (Word.sub (Word.add (Word.mul 2 (Word.sub (n_cols F) 1))
                              (n_cols I)) 1)) as [W|] eqn:HW|]|];
      [ exists (Returned tt), (Some W)
      | exists (Thrown logic_error), (Some P)
      | exists (Thrown logic_error), None
      | exists (Thrown logic_error), None ];
      intros σ HI HF; enter_full pad I F.
    + rewrite (run_checked _ _ _ Q) by done.
      product_assigned P I F. rewrite (run_checked _ _ _ W) by done.
      unfold assign. by rewrite insert_insert_eq.
    + rewrite (run_checked _ _ _ Q) by done.
      product_assigned P I F. by rewrite run_checked_None.
    + rewrite (run_checked _ _ _ Q) by done. by rewrite run_checked_None.
    + by rewrite run_checked_None.
Qed.

(** C9. A call has no effect but the assignment to its output: in either
    mode and from any store, every matrix object other than the output
    is unchanged when the call ends, so the input and the filter are
    unchanged when the output is a distinct object; and what the call
    does (how it ends, and the matrix it leaves in the output) is a
    function of the matrices the input and the filter denote, of the
    mode and of [padLastDim]: the store is the only state there is, and
    nothing else of it is read. *)
Theorem Convolution_frame mode pad input filter output σ :
  (∀ l, l ≠ output →
     (Convolution mode pad input filter output σ).1 !! l = σ !! l)
  ∧ (output ≠ input → output ≠ filter →
     (Convolution mode pad input filter output σ).1 !! input = σ !! input
     ∧ (Convolution mode pad input filter output σ).1 !! filter
         = σ !! filter)
  ∧ (output ≠ input → output ≠ filter →
     ∃ (r : outcome unit) (w : option Mat), ∀ σ',
       σ' !! input = σ !! input → σ' !! filter = σ !! filter →
       Convolution mode pad input filter output σ' =
         (match w with Some W => <[output := W]> σ' | None => σ' end, r)).
Proof.
  assert (∀ l, l ≠ output →
    (Convolution mode pad input filter output σ).1 !! l = σ !! l) as Hframe.
  { intros l Hl.
    destruct (Convolution_writes_only mode pad input filter output σ)
      as [->|[M ->]]; [done|].
    by rewrite lookup_insert_ne. }
  split; [done|]. split.
  - intros Hoi Hof. split; by apply Hframe.
  - intros Hoi Hof. by apply Convolution_effect.
Qed.

Lemma Convolution_frame_witness :
  (Convolution ValidConvolution true 0%nat 1%nat 2%nat example_store).1
    !! 0%nat = example_store !! 0%nat
  ∧ (Convolution ValidConvolution true 0%nat 1%nat 2%nat example_store).1
    !! 1%nat = example_store !! 1%nat.
Proof.
  apply (Convolution_frame ValidConvolution true 0%nat 1%nat 2%nat
           example_store); by_eval.
Defined.

(** *** Calls whose output is an operand

    The properties of a call suppose an output object distinct from the
    two operands.  The source reads [input.n_rows] and [input.n_cols]
    again after it has assigned the working-size product to [output], so
    a call whose output is its input extracts a window taken from the
    working shape: with [padLastDim] the padding column stays in the
    result. *)
Example aliased_output_example :
  Convolution ValidConvolution true 0%nat 1%nat 0%nat example_store
  = (<[0%nat := mkMat 2 3 [4; 4; 4; 4; 2; 2]]> example_store, Returned tt).
Proof. by vm_compute. Qed.

(** ** Index computations *)

(** C10. Within the preconditions no index computation wraps around and
    every window passes its check: [filter.n_rows - 1] and
    [filter.n_cols - 1] do not underflow; in full mode the working shape
    does not overflow, the window in which the input is placed lies
    inside the zero working buffer and has the shape of the input; and
    in both modes the final extraction window lies inside the
    working-size product.  Full mode asks nothing of the size of the
    filter relative to the input. *)
Theorem index_computations_in_bounds mode pad I F :
  pre mode I F →
  Word.sub (n_rows F) 1 = n_rows F - 1
  ∧ Word.sub (n_cols F) 1 = n_cols F - 1
  ∧ match mode with
    | ValidConvolution =>
        let inputPadded := valid_inputPadded pad I in
        ∃ product,
          fft_product inputPadded
            (resize F (n_rows inputPadded) (n_cols inputPadded))
            = Some product
          ∧ submat_ok product
              (Word.sub (n_rows F) 1) (Word.sub (n_cols F) 1)
              (Word.sub (n_rows I) 1) (Word.sub (n_cols I) 1) = true
    | FullConvolution =>
        let outputRows := full_outputRows I F in
        let outputCols := full_outputCols pad I F in
        outputRows = n_rows I + 2 * (n_rows F - 1)
        ∧ outputCols = n_cols I + 2 * (n_cols F - 1) + (if pad then 1 else 0)
        ∧ submat_ok (zeros outputRows outputCols)
            (Word.sub (n_rows F) 1) (Word.sub (n_cols F) 1)
            (Word.sub (Word.add (Word.sub (n_rows F) 1) (n_rows I)) 1)
            (Word.sub (Word.add (Word.sub (n_cols F) 1) (n_cols I)) 1)
            = true
        ∧ Word.sub (Word.add (Word.sub (n_rows F) 1) (n_rows I)) 1
            = n_rows F - 1 + n_rows I - 1
        ∧ Word.sub (Word.add (Word.sub (n_cols F) 1) (n_cols I)) 1
            = n_cols F - 1 + n_cols I - 1
        ∧ ∃ inputPadded product,
            full_inputPadded pad I F = Some inputPadded
            ∧ fft_product inputPadded (resize F outputRows outputCols)
                = Some product
            ∧ submat_ok product
                (Word.sub (n_rows F) 1) (Word.sub (n_cols F) 1)
                (Word.sub (Word.add (Word.mul 2 (Word.sub (n_rows F) 1))
                                    (n_rows I)) 1)
                (Word.sub (Word.add (Word.mul 2 (Word.sub (n_cols F) 1))
                                    (n_cols I)) 1) = true
    end.
Proof.
  intros Hpre.
  assert (wf I ∧ wf F ∧ nonempty I ∧ nonempty F) as (HI & HF & HnI & HnF)
    by by destruct Hpre.
  pose proof (wf_rows_small I HI HnI). pose proof (wf_cols_small I HI HnI).
  pose proof (wf_rows_small F HF HnF). pose proof (wf_cols_small F HF HnF).
  split; [by word_simpl|]. split; [by word_simpl|].
  destruct mode; cbv zeta.
  - eexists. split; [by apply fft_product_Some|].
    pose proof (valid_extract pad I F Hpre) as Hx. cbv zeta in Hx.
    unfold submat in Hx.
    by destruct (submat_ok _ _ _ _ _).
  - pose proof (full_outputRows_eq I F Hpre) as HR.
    pose proof (full_outputCols_eq pad I F Hpre) as HC.
    assert (0 <= (if pad then 1 else 0) <= 1) by (destruct pad; lia).
    destruct (full_inputPadded_Some pad I F Hpre) as (P & HP & HrP & HcP & _).
    split; [done|]. split; [done|].
    split.
    { apply submat_ok_iff. unfold zeros. rewrite n_rows_build, n_cols_build.
      rewrite HR, HC. word_simpl. lia. }
    split; [by word_simpl|]. split; [by word_simpl|].
    exists P. eexists. split; [done|].
    split; [by apply fft_product_Some|].
    pose proof (full_extract pad I F P Hpre HP) as Hx.
    unfold submat in Hx.
    by destruct (submat_ok _ _ _ _ _).
Qed.

(** The filter of the witness is larger than the input. *)
Lemma index_computations_in_bounds_witness :
  Word.sub 3 1 = 3 - 1
  ∧ Word.sub 3 1 = 3 - 1
  ∧ full_outputRows (ones 2 2) (ones 3 3) = 2 + 2 * (3 - 1)
  ∧ full_outputCols true (ones 2 2) (ones 3 3) = 2 + 2 * (3 - 1) + 1
  ∧ submat_ok
      (zeros (full_outputRows (ones 2 2) (ones 3 3))
             (full_outputCols true (ones 2 2) (ones 3 3)))
      (Word.sub 3 1) (Word.sub 3 1)
      (Word.sub (Word.add (Word.sub 3 1) 2) 1)
      (Word.sub (Word.add (Word.sub 3 1) 2) 1) = true
  ∧ Word.sub (Word.add (Word.sub 3 1) 2) 1 = 3 - 1 + 2 - 1
  ∧ Word.sub (Word.add (Word.sub 3 1) 2) 1 = 3 - 1 + 2 - 1
  ∧ ∃ inputPadded product,
      full_inputPadded true (ones 2 2) (ones 3 3) = Some inputPadded
      ∧ fft_product inputPadded
          (resize (ones 3 3) (full_outputRows (ones 2 2) (ones 3 3))
                  (full_outputCols true (ones 2 2) (ones 3 3)))
          = Some product
      ∧ submat_ok product (Word.sub 3 1) (Word.sub 3 1)
          (Word.sub (Word.add (Word.mul 2 (Word.sub 3 1)) 2) 1)
          (Word.sub (Word.add (Word.mul 2 (Word.sub 3 1)) 2) 1) = true.
Proof.
  apply (index_computations_in_bounds FullConvolution true
           (ones 2 2) (ones 3 3)); by_eval.
Defined.

(** * Further properties of the two calls *)

(** ** Calls outside the preconditions *)

Lemma wrap_range z : 0 <= Word.wrap z < Word.modulus.
Proof. unfold Word.wrap. apply Z.mod_pos_bound. by rewrite modulus_eq. Qed.

Lemma submat_ok_false M r1 c1 r2 c2 :
  r1 > r2 ∨ c1 > c2 ∨ r2 >= n_rows M ∨ c2 >= n_cols M →
  submat_ok M r1 c1 r2 c2 = false.
Proof.
  intros H. destruct (submat_ok M r1 c1 r2 c2) eqn:E; [|done].
  apply submat_ok_iff in E. lia.
Qed.

Lemma submat_None M r1 c1 r2 c2 :
  r1 > r2 ∨ c1 > c2 ∨ r2 >= n_rows M ∨ c2 >= n_cols M →
  submat M r1 c1 r2 c2 = None.
Proof. intros H. unfold submat. by rewrite submat_ok_false. Qed.

Lemma set_submat_None M r1 c1 r2 c2 X :
  r1 > r2 ∨ c1 > c2 ∨ r2 >= n_rows M ∨ c2 >= n_cols M →
  set_submat M r1 c1 r2 c2 X = None.
Proof. intros H. unfold set_submat. by rewrite submat_ok_false. Qed.

(** [0 - 1] on a [uword] is the largest [uword]. *)
Lemma sub_0_1 : Word.sub 0 1 = Word.modulus - 1.
Proof. reflexivity. Qed.

(** The working product of the valid mode. *)
Lemma valid_product_shape pad I F :
  n_rows (circular (valid_inputPadded pad I)
            (resize F (n_rows (valid_inputPadded pad I))
                      (n_cols (valid_inputPadded pad I))))
    = n_rows I
  ∧ n_cols (circular (valid_inputPadded pad I)
              (resize F (n_rows (valid_inputPadded pad I))
                        (n_cols (valid_inputPadded pad I))))
    = if pad then Word.add (n_cols I) 1 else n_cols I.
Proof. by destruct pad. Qed.

(** A valid-mode call that throws at the extraction, on an output
    distinct from the operands: the output holds the working product. *)
Lemma Convolution_valid_throws (pad : bool) input filter output σ I F :
  σ !! input = Some I → σ !! filter = Some F →
  output ≠ input → output ≠ filter →
  Word.sub (n_rows F) 1 > Word.sub (n_rows I) 1
  ∨ Word.sub (n_cols F) 1 > Word.sub (n_cols I) 1
  ∨ Word.sub (n_rows I) 1 >= n_rows I
  ∨ Word.sub (n_cols I) 1 >= (if pad then Word.add (n_cols I) 1
                              else n_cols I) →
  Convolution ValidConvolution pad input filter output σ =
    (<[output := circular (valid_inputPadded pad I)
         (resize F (n_rows (valid_inputPadded pad I))
                   (n_cols (valid_inputPadded pad I)))]> σ,
     Thrown logic_error).
Proof.
  intros HI HF Hoi Hof Hbad. simpl. enter_valid pad I F.
  product_assigned (circular (valid_inputPadded pad I)
    (resize F (n_rows (valid_inputPadded pad I))
              (n_cols (valid_inputPadded pad I)))) I F.
  rewrite run_checked_None; [done|].
  apply submat_None.
  destruct (valid_product_shape pad I F) as [-> ->]. done.
Qed.

(** X1. In valid mode a non-empty filter that is larger than the input,
    in rows or in columns, makes the call throw at the extraction of
    line 67; by then line 62 has assigned the working-size product to
    the output, which keeps it. *)
Theorem valid_oversized_filter_throws pad input filter output σ I F :
  σ !! input = Some I → σ !! filter = Some F →
  output ≠ input → output ≠ filter →
  wf I → wf F → nonempty I → nonempty F →
  n_rows I < n_rows F ∨ n_cols I < n_cols F →
  Convolution ValidConvolution pad input filter output σ =
    (<[output := circular (valid_inputPadded pad I)
         (resize F (n_rows (valid_inputPadded pad I))
                   (n_cols (valid_inputPadded pad I)))]> σ,
     Thrown logic_error)
  ∧ n_rows (circular (valid_inputPadded pad I)
      (resize F (n_rows (valid_inputPadded pad I))
                (n_cols (valid_inputPadded pad I)))) = n_rows I.
Proof.
  intros HI HF Hoi Hof HwI HwF HnI HnF Hbig. split; [|by destruct pad].
  apply Convolution_valid_throws; try done.
  pose proof (wf_rows_small I HwI HnI). pose proof (wf_cols_small I HwI HnI).
  pose proof (wf_rows_small F HwF HnF). pose proof (wf_cols_small F HwF HnF).
  word_simpl. lia.
Qed.

Lemma valid_oversized_filter_throws_witness :
  Convolution ValidConvolution true 1%nat 0%nat 2%nat example_store =
    (<[2%nat := circular (valid_inputPadded true (ones 2 2))
         (resize (ones 3 3) (n_rows (valid_inputPadded true (ones 2 2)))
                 (n_cols (valid_inputPadded true (ones 2 2))))]>
       example_store,
     Thrown logic_error)
  ∧ n_rows (circular (valid_inputPadded true (ones 2 2))
      (resize (ones 3 3) (n_rows (valid_inputPadded true (ones 2 2)))
              (n_cols (valid_inputPadded true (ones 2 2))))) = 2.
Proof.
  apply (valid_oversized_filter_throws true 1%nat 0%nat 2%nat example_store
           (ones 2 2) (ones 3 3)); first [by_eval | left; by_eval | right; by_eval].
Defined.

(** X2. In valid mode an empty input (no rows, or no columns) makes the
    call throw at the extraction, whatever the filter is:
    [input.n_rows - 1] underflows to the largest [uword].  The output
    is left holding the working product. *)
Theorem valid_empty_input_throws (pad : bool) input filter output σ I F :
  σ !! input = Some I → σ !! filter = Some F →
  output ≠ input → output ≠ filter →
  n_rows I = 0 ∨ n_cols I = 0 →
  Convolution ValidConvolution pad input filter output σ =
    (<[output := circular (valid_inputPadded pad I)
         (resize F (n_rows (valid_inputPadded pad I))
                   (n_cols (valid_inputPadded pad I)))]> σ,
     Thrown logic_error).
Proof.
  intros HI HF Hoi Hof Hempty.
  apply Convolution_valid_throws; try done.
  destruct Hempty as [-> | ->]; rewrite sub_0_1, modulus_eq.
  - right; right; left. lia.
  - right; right; right.
    destruct pad; [change (Word.add 0 1) with 1|]; lia.
Qed.

Lemma valid_empty_input_throws_witness :
  Convolution ValidConvolution true 0%nat 1%nat 2%nat
    {[ 0%nat := zeros 3 0; 1%nat := ones 2 2; 2%nat := ones 1 1 ]} =
    (<[2%nat := circular (valid_inputPadded true (zeros 3 0))
         (resize (ones 2 2) (n_rows (valid_inputPadded true (zeros 3 0)))
                 (n_cols (valid_inputPadded true (zeros 3 0))))]>
       {[ 0%nat := zeros 3 0; 1%nat := ones 2 2; 2%nat := ones 1 1 ]},
     Thrown logic_error).
Proof.
  apply (valid_empty_input_throws true 0%nat 1%nat 2%nat
           {[ 0%nat := zeros 3 0; 1%nat := ones 2 2; 2%nat := ones 1 1 ]}
           (zeros 3 0) (ones 2 2)); first [by_eval | left; by_eval | right; by_eval].
Defined.

(** X3. In valid mode an empty filter on a non-empty input makes the
    call throw at the extraction: [filter.n_rows - 1] (or
    [filter.n_cols - 1]) underflows to the largest [uword], beyond the
    last row (column) of the input.  The output is left holding the
    working product. *)
Theorem valid_empty_filter_throws (pad : bool) input filter output σ I F :
  σ !! input = Some I → σ !! filter = Some F →
  output ≠ input → output ≠ filter →
  wf I → nonempty I →
  n_rows F = 0 ∨ n_cols F = 0 →
  Convolution ValidConvolution pad input filter output σ =
    (<[output := circular (valid_inputPadded pad I)
         (resize F (n_rows (valid_inputPadded pad I))
                   (n_cols (valid_inputPadded pad I)))]> σ,
     Thrown logic_error).
Proof.
  intros HI HF Hoi Hof HwI HnI Hempty.
  apply Convolution_valid_throws; try done.
  pose proof (wf_rows_small I HwI HnI). pose proof (wf_cols_small I HwI HnI).
  destruct Hempty as [-> | ->]; rewrite sub_0_1, modulus_eq; word_simpl; lia.
Qed.

Lemma valid_empty_filter_throws_witness :
  Convolution ValidConvolution false 0%nat 1%nat 2%nat
    {[ 0%nat := ones 3 3; 1%nat := zeros 0 2; 2%nat := ones 1 1 ]} =
    (<[2%nat := circular (valid_inputPadded false (ones 3 3))
         (resize (zeros 0 2) (n_rows (valid_inputPadded false (ones 3 3)))
                 (n_cols (valid_inputPadded false (ones 3 3))))]>
       {[ 0%nat := ones 3 3; 1%nat := zeros 0 2; 2%nat := ones 1 1 ]},
     Thrown logic_error).
Proof.
  apply (valid_empty_filter_throws false 0%nat 1%nat 2%nat
           {[ 0%nat := ones 3 3; 1%nat := zeros 0 2; 2%nat := ones 1 1 ]}
           (ones 3 3) (zeros 0 2)); first [by_eval | left; by_eval | right; by_eval].
Defined.

(** A full-mode call whose placement window fails its check throws
    before anything is assigned. *)
Lemma Convolution_full_throws (pad : bool) input filter output σ I F :
  σ !! input = Some I → σ !! filter = Some F →
  full_inputPadded pad I F = None →
  Convolution FullConvolution pad input filter output σ
    = (σ, Thrown logic_error).
Proof.
  intros HI HF HP. simpl. enter_full pad I F. by rewrite run_checked_None.
Qed.

(** X4. In full mode an empty filter makes the call throw at the
    placement of the input (lines 100-102), for every input:
    [filter.n_rows - 1] (or [filter.n_cols - 1]) underflows to the largest
    [uword], which no window of a working buffer can start at.  Nothing
    has been assigned yet: the store is unchanged, also when the output
    is one of the operands. *)
Theorem full_empty_filter_throws (pad : bool) input filter output σ I F :
  σ !! input = Some I → σ !! filter = Some F →
  n_rows F = 0 ∨ n_cols F = 0 →
  Convolution FullConvolution pad input filter output σ
    = (σ, Thrown logic_error).
Proof.
  intros HI HF Hempty. apply (Convolution_full_throws pad _ _ _ _ I F);
    try done.
  apply set_submat_None. unfold zeros. rewrite n_rows_build, n_cols_build.
  destruct Hempty as [-> | ->]; rewrite sub_0_1, modulus_eq.
  - match goal with
    | |- _ > ?r2 ∨ _ ∨ ?r2 >= ?R ∨ _ =>
        assert (0 <= r2 < Word.modulus) by apply wrap_range;
        assert (0 <= R < Word.modulus) by apply wrap_range
    end.
    rewrite modulus_eq in *. lia.
  - match goal with
    | |- _ ∨ _ > ?c2 ∨ _ ∨ ?c2 >= ?C =>
        assert (0 <= c2 < Word.modulus) by apply wrap_range;
        assert (0 <= C < Word.modulus)
          by (unfold full_outputCols; destruct pad; apply wrap_range)
    end.
    rewrite modulus_eq in *. lia.
Qed.

Lemma full_empty_filter_throws_witness :
  Convolution FullConvolution true 0%nat 1%nat 2%nat
    {[ 0%nat := ones 3 3; 1%nat := zeros 2 0; 2%nat := ones 1 1 ]}
  = ({[ 0%nat := ones 3 3; 1%nat := zeros 2 0; 2%nat := ones 1 1 ]},
     Thrown logic_error).
Proof.
  apply (full_empty_filter_throws true 0%nat 1%nat 2%nat
           {[ 0%nat := ones 3 3; 1%nat := zeros 2 0; 2%nat := ones 1 1 ]}
           (ones 3 3) (zeros 2 0)); first [by_eval | left; by_eval | right; by_eval].
Defined.

(** X5. In full mode an empty input with a non-empty filter makes the
    call throw at the placement of the input: the window would end
    before it starts, or, for a filter of one row (column), at the
    underflowed index.  The store is unchanged. *)
Theorem full_empty_input_throws (pad : bool) input filter output σ I F :
  σ !! input = Some I → σ !! filter = Some F →
  wf F → nonempty F →
  n_rows I = 0 ∨ n_cols I = 0 →
  Convolution FullConvolution pad input filter output σ
    = (σ, Thrown logic_error).
Proof.
  intros HI HF HwF HnF Hempty.
  apply (Convolution_full_throws pad _ _ _ _ I F); try done.
  pose proof (wf_rows_small F HwF HnF). pose proof (wf_cols_small F HwF HnF).
  apply set_submat_None. unfold zeros. rewrite n_rows_build, n_cols_build.
  assert (Word.sub (Word.add (Word.sub 1 1) 0) 1 = Word.modulus - 1) as Hlast
    by reflexivity.
  assert (Word.add 0 (Word.mul 2 (Word.sub 1 1)) = 0) as Hwork
    by reflexivity.
  rewrite modulus_eq in Hlast.
  destruct Hempty as [HE | HE]; rewrite HE.
  - destruct (decide (n_rows F = 1)) as [HF1|].
    + right; right; left. unfold full_outputRows.
      rewrite HE, HF1, Hlast, Hwork. lia.
    + left. word_simpl. lia.
  - destruct (decide (n_cols F = 1)) as [HF1|].
    + right; right; right. unfold full_outputCols.
      rewrite HE, HF1, Hlast, Hwork.
      destruct pad; [change (Word.add 0 1) with 1|]; lia.
    + right; left. word_simpl. lia.
Qed.

Lemma full_empty_input_throws_witness :
  Convolution FullConvolution false 0%nat 1%nat 2%nat
    {[ 0%nat := zeros 0 3; 1%nat := ones 1 2; 2%nat := ones 1 1 ]}
  = ({[ 0%nat := zeros 0 3; 1%nat := ones 1 2; 2%nat := ones 1 1 ]},
     Thrown logic_error).
Proof.
  apply (full_empty_input_throws false 0%nat 1%nat 2%nat
           {[ 0%nat := zeros 0 3; 1%nat := ones 1 2; 2%nat := ones 1 1 ]}
           (zeros 0 3) (ones 1 2)); first [by_eval | left; by_eval | right; by_eval].
Defined.

(** ** The two modes on the same operands *)

Lemma direct_valid_window I F :
  pre ValidConvolution I F →
  submat (direct_full I F)
    (n_rows F - 1) (n_cols F - 1) (n_rows I - 1) (n_cols I - 1)
  = Some (direct_valid I F).
Proof.
  intros [HwI HwF [? ?] [? ?] [? ?]].
  unfold direct_full, direct_valid.
  rewrite submat_Some by (rewrite ?n_rows_build, ?n_cols_build; lia).
  f_equal.
  replace (n_rows I - 1 - (n_rows F - 1) + 1)
    with (n_rows I - n_rows F + 1) by lia.
  replace (n_cols I - 1 - (n_cols F - 1) + 1)
    with (n_cols I - n_cols F + 1) by lia.
  apply build_ext; [lia|]. intros i j Hi Hj.
  by rewrite at_build by lia.
Qed.

(** X6. On the same operands (a filter no larger than the input), the
    output of the valid mode is the window of the output of the full
    mode from [(filter.n_rows - 1, filter.n_cols - 1)] to
    [(input.n_rows - 1, input.n_cols - 1)], whatever [padLastDim] each
    of the two engines has. *)
Theorem valid_is_window_of_full pad pad' input filter output σ I F :
  σ !! input = Some I → σ !! filter = Some F →
  output ≠ input → output ≠ filter →
  pre ValidConvolution I F →
  ∃ Ofull Ovalid,
    Convolution FullConvolution pad input filter output σ
      = (<[output := Ofull]> σ, Returned tt)
    ∧ Convolution ValidConvolution pad' input filter output σ
      = (<[output := Ovalid]> σ, Returned tt)
    ∧ submat Ofull
        (n_rows F - 1) (n_cols F - 1) (n_rows I - 1) (n_cols I - 1)
      = Some Ovalid.
Proof.
  intros HI HF Hoi Hof Hpre.
  exists (direct_full I F), (direct_valid I F).
  split; [|split].
  - apply (Convolution_run FullConvolution); try done.
    by destruct Hpre.
  - by apply (Convolution_run ValidConvolution).
  - by apply direct_valid_window.
Qed.

Lemma valid_is_window_of_full_witness :
  ∃ Ofull Ovalid,
    Convolution FullConvolution true 0%nat 1%nat 2%nat example_store
      = (<[2%nat := Ofull]> example_store, Returned tt)
    ∧ Convolution ValidConvolution false 0%nat 1%nat 2%nat example_store
      = (<[2%nat := Ovalid]> example_store, Returned tt)
    ∧ submat Ofull (2 - 1) (2 - 1) (3 - 1) (3 - 1) = Some Ovalid.
Proof.
  apply (valid_is_window_of_full true false 0%nat 1%nat 2%nat example_store
           (ones 3 3) (ones 2 2)); by_eval.
Defined.

(** ** Repeated calls *)

(** X7. A call is idempotent on the store: on an output distinct from
    the operands, calling again with the same arguments from the store
    the first call left ends the same way and leaves that store as it
    is, whether the calls return or throw. *)
Theorem Convolution_idempotent mode pad input filter output σ :
  output ≠ input → output ≠ filter →
  Convolution mode pad input filter output
    (Convolution mode pad input filter output σ).1
  = Convolution mode pad input filter output σ.
Proof.
  intros Hoi Hof.
  destruct (Convolution_effect mode pad input filter output
              (σ !! input) (σ !! filter) Hoi Hof) as (r & w & Hrun).
  rewrite (Hrun σ) by done. simpl.
  destruct w as [W|]; [|by rewrite (Hrun σ)].
  rewrite (Hrun (<[output := W]> σ)) by by rewrite lookup_insert_ne.
  by rewrite insert_insert_eq.
Qed.

Lemma Convolution_idempotent_witness :
  Convolution FullConvolution true 0%nat 1%nat 2%nat
    (Convolution FullConvolution true 0%nat 1%nat 2%nat example_store).1
  = Convolution FullConvolution true 0%nat 1%nat 2%nat example_store.
Proof.
  apply (Convolution_idempotent FullConvolution true 0%nat 1%nat 2%nat
           example_store); by_eval.
Defined.

(** ** Linearity in the input *)

Lemma sumZ_lincomb n a f b g :
  sumZ n (λ k, a * f k + b * g k) = a * sumZ n f + b * sumZ n g.
Proof.
  destruct (decide (n <= 0)) as [|Hn]; [rewrite !sumZ_nonpos by done; lia|].
  pattern n. apply Z_bound_ind; [rewrite !sumZ_nonpos by done; lia| |lia].
  intros m Hm IH. rewrite !sumZ_succ, IH by done. lia.
Qed.

Lemma ext_lincomb a X b Y i j :
  n_rows Y = n_rows X → n_cols Y = n_cols X →
  ext (lincomb a X b Y) i j = a * ext X i j + b * ext Y i j.
Proof.
  intros Hr Hc. unfold ext, lincomb.
  rewrite n_rows_build, n_cols_build, Hr, Hc.
  destruct (bool_decide_reflect (0 <= i < n_rows X)),
           (bool_decide_reflect (0 <= j < n_cols X)); simpl; try lia.
  by rewrite at_build.
Qed.

Lemma linear_lincomb a X b Y F u v :
  n_rows Y = n_rows X → n_cols Y = n_cols X →
  linear (lincomb a X b Y) F u v = a * linear X F u v + b * linear Y F u v.
Proof.
  intros Hr Hc. unfold linear. rewrite <- sumZ_lincomb.
  apply sumZ_ext. intros k Hk. rewrite <- sumZ_lincomb.
  apply sumZ_ext. intros l Hl. rewrite ext_lincomb by done. lia.
Qed.

Lemma wf_lincomb a X b Y : wf X → wf (lincomb a X b Y).
Proof. intros [? ? ? ?]. by apply wf_build. Qed.

Lemma n_rows_lincomb a X b Y : n_rows (lincomb a X b Y) = n_rows X.
Proof. done. Qed.

Lemma n_cols_lincomb a X b Y : n_cols (lincomb a X b Y) = n_cols X.
Proof. done. Qed.

Lemma lincomb_build a r c f b Y :
  lincomb a (build r c f) b Y
    = build r c (λ i j, a * at_ (build r c f) i j + b * at_ Y i j).
Proof. done. Qed.

Lemma direct_lincomb mode a X b Y F :
  n_rows Y = n_rows X → n_cols Y = n_cols X →
  pre mode X F →
  direct mode (lincomb a X b Y) F
    = lincomb a (direct mode X F) b (direct mode Y F).
Proof.
  intros Hr Hc [HwX HwF [? ?] [? ?] Hfit].
  destruct mode; unfold direct, direct_valid, direct_full;
    rewrite lincomb_build, n_rows_lincomb, n_cols_lincomb, Hr, Hc.
  - destruct Hfit. apply build_ext; [lia|]. intros i j Hi Hj.
    rewrite linear_lincomb by done.
    rewrite !at_build by lia. done.
  - apply build_ext; [lia|]. intros i j Hi Hj.
    rewrite linear_lincomb by done.
    rewrite !at_build by lia. done.
Qed.

(** X8. Both modes are linear in the input: for two inputs [X] and [Y]
    of one shape and a filter [F], the output for the input
    [a * X + b * Y] is [a] times the output for [X] plus [b] times the
    output for [Y]. *)
Theorem Convolution_linear mode pad inX inY inZ filter output σ a b X Y F :
  σ !! inX = Some X → σ !! inY = Some Y →
  σ !! inZ = Some (lincomb a X b Y) → σ !! filter = Some F →
  output ≠ inX → output ≠ inY → output ≠ inZ → output ≠ filter →
  n_rows Y = n_rows X → n_cols Y = n_cols X → wf Y →
  pre mode X F →
  ∃ OX OY,
    Convolution mode pad inX filter output σ
      = (<[output := OX]> σ, Returned tt)
    ∧ Convolution mode pad inY filter output σ
      = (<[output := OY]> σ, Returned tt)
    ∧ Convolution mode pad inZ filter output σ
      = (<[output := lincomb a OX b OY]> σ, Returned tt).
Proof.
  intros HX HY HZ HF HoX HoY HoZ Hof Hr Hc HwY Hpre.
  pose proof Hpre as [HwX HwF HnX HnF Hfit].
  assert (pre mode Y F) as HpreY.
  { split; try done.
    - unfold nonempty in *. by rewrite Hr, Hc.
    - destruct mode; simpl in *; [by rewrite Hr, Hc | done]. }
  assert (pre mode (lincomb a X b Y) F) as HpreZ.
  { split; try done. by apply wf_lincomb. }
  exists (direct mode X F), (direct mode Y F).
  split; [by apply Convolution_run|]. split; [by apply Convolution_run|].
  rewrite <- direct_lincomb by done. by apply Convolution_run.
Qed.

Lemma Convolution_linear_witness :
  ∃ OX OY,
    Convolution ValidConvolution true 0%nat 1%nat 2%nat linear_store
      = (<[2%nat := OX]> linear_store, Returned tt)
    ∧ Convolution ValidConvolution true 3%nat 1%nat 2%nat linear_store
      = (<[2%nat := OY]> linear_store, Returned tt)
    ∧ Convolution ValidConvolution true 4%nat 1%nat 2%nat linear_store
      = (<[2%nat := lincomb 2 OX 5 OY]> linear_store, Returned tt).
Proof.
  apply (Convolution_linear ValidConvolution true 0%nat 3%nat 4%nat 1%nat
           2%nat linear_store 2 5 (ones 3 3)
           (mkMat 3 3 [1; 2; 3; 4; 5; 6; 7; 8; 9]) (ones 2 2)); by_eval.
Defined.

(** ** Commutativity of the full mode *)

Lemma sumZ_shift n f :
  0 <= n → sumZ (n + 1) f = f 0 + sumZ n (λ k, f (k + 1)).
Proof.
  intros Hn. pattern n. apply Z_bound_ind; [| |done].
  - rewrite sumZ_one, sumZ_nonpos by done. lia.
  - intros m Hm IH. rewrite (sumZ_succ (m + 1)), IH, (sumZ_succ m) by lia.
    lia.
Qed.

(** A sum read from its last term to its first. *)
Lemma sumZ_rev n f : sumZ n f = sumZ n (λ k, f (n - 1 - k)).
Proof.
  destruct (decide (n <= 0)) as [|Hn]; [by rewrite !sumZ_nonpos|].
  revert f. pattern n. apply Z_bound_ind; [done| |lia].
  intros m Hm IH f. rewrite sumZ_succ, sumZ_shift by done.
  rewrite (IH f).
  replace (m + 1 - 1 - 0) with m by lia.
  rewrite Z.add_comm. f_equal.
  apply sumZ_ext. intros k Hk. f_equal. lia.
Qed.

(** Two bounds of a sum between which the terms vanish. *)
Lemma sumZ_bounds n n' f :
  0 <= n → 0 <= n' →
  (∀ k, Z.min n n' <= k < Z.max n n' → f k = 0) →
  sumZ n f = sumZ n' f.
Proof.
  intros Hn Hn' Hf. destruct (decide (n <= n')).
  - symmetry. apply sumZ_trunc; [lia|]. intros k Hk. apply Hf. lia.
  - apply sumZ_trunc; [lia|]. intros k Hk. apply Hf. lia.
Qed.

(** The linear convolution at [(a, b)] as a sum over the rectangle from
    the origin to [(a, b)], both operands zero outside their shapes. *)
Lemma linear_rectangle I F a b :
  0 <= n_rows F → 0 <= n_cols F → 0 <= a → 0 <= b →
  linear I F a b =
    sumZ (a + 1) (λ k, sumZ (b + 1) (λ l,
      ext I (a - k) (b - l) * ext F k l)).
Proof.
  intros Hp Hq Ha Hb. unfold linear.
  transitivity (sumZ (n_rows F) (λ k, sumZ (b + 1) (λ l,
    ext I (a - k) (b - l) * ext F k l))).
  - apply sumZ_ext. intros k Hk.
    transitivity (sumZ (n_cols F) (λ l, ext I (a - k) (b - l) * ext F k l)).
    + apply sumZ_ext. intros l Hl. by rewrite (ext_inside F).
    + apply sumZ_bounds; [done|lia|]. intros l Hl.
      destruct (decide (n_cols F <= l)).
      * rewrite (ext_outside F) by lia. lia.
      * rewrite (ext_outside I) by lia. lia.
  - apply sumZ_bounds; [done|lia|]. intros k Hk.
    apply sumZ_zero. intros l Hl.
    destruct (decide (n_rows F <= k)).
    + rewrite (ext_outside F) by lia. lia.
    + rewrite (ext_outside I) by lia. lia.
Qed.

Lemma linear_comm I F a b :
  0 <= n_rows I → 0 <= n_cols I → 0 <= n_rows F → 0 <= n_cols F →
  0 <= a → 0 <= b →
  linear I F a b = linear F I a b.
Proof.
  intros. rewrite !linear_rectangle by done.
  rewrite sumZ_rev. apply sumZ_ext. intros k Hk.
  rewrite sumZ_rev. apply sumZ_ext. intros l Hl.
  rewrite Z.mul_comm. f_equal; f_equal; lia.
Qed.

Lemma direct_full_comm I F :
  pre FullConvolution I F → direct_full I F = direct_full F I.
Proof.
  intros [HwI HwF [? ?] [? ?] _]. unfold direct_full.
  replace (n_rows F + n_rows I - 1) with (n_rows I + n_rows F - 1) by lia.
  replace (n_cols F + n_cols I - 1) with (n_cols I + n_cols F - 1) by lia.
  apply build_ext; [lia|]. intros a b Ha Hb.
  apply linear_comm; lia.
Qed.

(** X9. The full mode is commutative: within the preconditions, the
    call with the input and the filter exchanged gives the same output,
    whatever [padLastDim] each of the two engines has. *)
Theorem full_commutative pad pad' input filter output σ I F :
  σ !! input = Some I → σ !! filter = Some F →
  output ≠ input → output ≠ filter →
  wf I → wf F → nonempty I → nonempty F →
  Convolution FullConvolution pad filter input output σ
    = Convolution FullConvolution pad' input filter output σ.
Proof.
  intros HI HF Hoi Hof HwI HwF HnI HnF.
  rewrite (Convolution_run FullConvolution pad filter input output σ F I),
    (Convolution_run FullConvolution pad' input filter output σ I F)
    by done.
  simpl. by rewrite direct_full_comm.
Qed.

Lemma full_commutative_witness :
  Convolution FullConvolution true 1%nat 0%nat 2%nat equal_size_store
    = Convolution FullConvolution false 0%nat 1%nat 2%nat equal_size_store.
Proof.
  apply (full_commutative true false 0%nat 1%nat 2%nat equal_size_store
           (mkMat 2 2 [1; 2; 3; 4]) (mkMat 2 2 [5; 6; 7; 8])); by_eval.
Defined.

(** ** Calls in place *)

(** The product is assigned to the output, which is the input; the
    extraction reads the shape of the product where the source says
    [input]. *)
Ltac product_assigned_in_place P F :=
  rewrite (run_checked _ _ _ P), run_assign
    by (done || by apply fft_product_Some);
  rewrite (run_read _ _ _ P) by apply lookup_insert_eq;
  rewrite (run_read _ _ _ F)
    by (rewrite lookup_insert_ne by congruence; done);
  rewrite (run_read _ _ _ P) by apply lookup_insert_eq.

(** X10. Without [padLastDim], the valid mode can be called in place:
    with the input object as the output, the call returns and the
    object holds the valid convolution of its former content. *)
Theorem valid_in_place input filter σ I F :
  σ !! input = Some I → σ !! filter = Some F →
  filter ≠ input →
  pre ValidConvolution I F →
  Convolution ValidConvolution false input filter input σ
    = (<[input := direct_valid I F]> σ, Returned tt).
Proof.
  intros HI HF Hfi Hpre. unfold Convolution, Convolution_valid.
  rewrite (run_read _ _ _ I), (run_read _ _ _ F) by done.
  cbv beta iota zeta.
  product_assigned_in_place
    (circular I (resize F (n_rows I) (n_cols I))) F.
  rewrite n_rows_circular, n_cols_circular.
  pose proof (valid_extract false I F Hpre) as Hx. cbv zeta in Hx.
  change (valid_inputPadded false I) with I in Hx.
  rewrite (run_checked _ _ _ _ Hx).
  unfold assign. by rewrite insert_insert_eq.
Qed.

Lemma valid_in_place_witness :
  Convolution ValidConvolution false 0%nat 1%nat 0%nat example_store
    = (<[0%nat := direct_valid (ones 3 3) (ones 2 2)]> example_store,
       Returned tt).
Proof.
  apply (valid_in_place 0%nat 1%nat example_store (ones 3 3) (ones 2 2));
    by_eval.
Defined.

(** X11. With [padLastDim], a valid-mode call in place keeps the padding
    column: the extraction of lines 67-68 reads [input.n_cols] after the
    working-size product has been assigned to the same object, so the
    result has [n - q + 2] columns, not [n - q + 1].  Its first
    [n - q + 1] columns are the valid convolution. *)
Theorem valid_in_place_padded input filter σ I F :
  σ !! input = Some I → σ !! filter = Some F →
  filter ≠ input →
  pre ValidConvolution I F →
  ∃ W,
    Convolution ValidConvolution true input filter input σ
      = (<[input := W]> σ, Returned tt)
    ∧ n_rows W = n_rows I - n_rows F + 1
    ∧ n_cols W = n_cols I - n_cols F + 2
    ∧ ∀ i j, 0 <= i < n_rows I - n_rows F + 1 →
             0 <= j < n_cols I - n_cols F + 1 →
        at_ W i j = at_ (direct_valid I F) i j.
Proof.
  intros HI HF Hfi Hpre. pose proof Hpre as [HwI HwF HnI HnF [Hfr Hfc]].
  pose proof (wf_rows_small I HwI HnI). pose proof (wf_cols_small I HwI HnI).
  pose proof (wf_rows_small F HwF HnF). pose proof (wf_cols_small F HwF HnF).
  pose proof (valid_inputPadded_shape true I HwI HnI) as [Hr Hc].
  assert (n_cols (valid_inputPadded true I) = n_cols I + 1) as Hc'
    by (simpl; by word_simpl).
  assert (Word.sub (n_rows F) 1 = n_rows F - 1) as E1 by by word_simpl.
  assert (Word.sub (n_cols F) 1 = n_cols F - 1) as E2 by by word_simpl.
  assert (Word.sub (n_rows (valid_inputPadded true I)) 1 = n_rows I - 1)
    as E3 by (rewrite Hr; by word_simpl).
  assert (Word.sub (n_cols (valid_inputPadded true I)) 1 = n_cols I)
    as E4 by (rewrite Hc'; word_simpl; lia).
  exists (build (n_rows I - 1 - (n_rows F - 1) + 1)
                (n_cols I - (n_cols F - 1) + 1)
                (λ i j, at_ (circular (valid_inputPadded true I)
                               (resize F (n_rows (valid_inputPadded true I))
                                         (n_cols (valid_inputPadded true I))))
                            (n_rows F - 1 + i) (n_cols F - 1 + j))).
  split; [|split; [|split]].
  - unfold Convolution, Convolution_valid.
    rewrite (run_read _ _ _ I), (run_read _ _ _ F) by done.
    cbv beta iota zeta. fold (valid_inputPadded true I).
    product_assigned_in_place
      (circular (valid_inputPadded true I)
         (resize F (n_rows (valid_inputPadded true I))
                   (n_cols (valid_inputPadded true I)))) F.
    rewrite n_rows_circular, n_cols_circular, E1, E2, E3, E4.
    erewrite run_checked
      by (apply submat_Some; rewrite ?n_rows_circular, ?n_cols_circular; lia).
    unfold assign. by rewrite insert_insert_eq.
  - rewrite n_rows_build. lia.
  - rewrite n_cols_build. lia.
  - intros i j Hi Hj. unfold direct_valid.
    rewrite !at_build by lia.
    rewrite circular_window by lia.
    unfold linear. apply sumZ_ext. intros k Hk. apply sumZ_ext. intros l Hl.
    by rewrite at_valid_inputPadded by (done || lia).
Qed.

Lemma valid_in_place_padded_witness :
  ∃ W,
    Convolution ValidConvolution true 0%nat 1%nat 0%nat example_store
      = (<[0%nat := W]> example_store, Returned tt)
    ∧ n_rows W = 3 - 2 + 1
    ∧ n_cols W = 3 - 2 + 2
    ∧ ∀ i j, 0 <= i < 3 - 2 + 1 → 0 <= j < 3 - 2 + 1 →
        at_ W i j = at_ (direct_valid (ones 3 3) (ones 2 2)) i j.
Proof.
  apply (valid_in_place_padded 0%nat 1%nat example_store
           (ones 3 3) (ones 2 2)); by_eval.
Defined.

(** X12. The full mode cannot be called in place with a filter of more
    than one row or column: with the input object as the output, the
    extraction of lines 113-115 adds [2 * (filter.n_rows - 1)] to the
    row count of the working-size product, which is what [input] then
    is, and lands beyond its last row (likewise for columns).  The call
    throws, and the input object is left holding the product.  The
    working buffer is supposed to fit the address space. *)
Theorem full_in_place_throws (pad : bool) input filter σ I F :
  σ !! input = Some I → σ !! filter = Some F →
  filter ≠ input →
  pre FullConvolution I F →
  min_sizeof_eT * (full_outputRows I F * full_outputCols pad I F)
    < Word.modulus →
  2 <= n_rows F ∨ 2 <= n_cols F →
  ∃ Q,
    full_inputPadded pad I F = Some Q
    ∧ Convolution FullConvolution pad input filter input σ
      = (<[input := circular Q
            (resize F (full_outputRows I F) (full_outputCols pad I F))]> σ,
         Thrown logic_error).
Proof.
  intros HI HF Hfi Hpre Hfit Hbig. pose proof Hpre as [HwI HwF HnI HnF _].
  pose proof (wf_rows_small I HwI HnI). pose proof (wf_cols_small I HwI HnI).
  pose proof (wf_rows_small F HwF HnF). pose proof (wf_cols_small F HwF HnF).
  destruct (full_inputPadded_Some pad I F Hpre) as (Q & HQ & HrQ & HcQ & _).
  pose proof (full_outputRows_eq I F Hpre) as HR.
  pose proof (full_outputCols_eq pad I F Hpre) as HC.
  assert (0 <= (if pad then 1 else 0) <= 1) by (destruct pad; lia).
  unfold min_sizeof_eT in Hfit. rewrite modulus_eq in Hfit.
  assert (full_outputRows I F < 2 ^ 62 ∧ full_outputCols pad I F < 2 ^ 62)
    as [? ?] by nia.
  exists Q. split; [done|].
  simpl. enter_full pad I F.
  rewrite (run_checked _ _ _ Q) by done.
  product_assigned_in_place (circular Q
    (resize F (full_outputRows I F) (full_outputCols pad I F))) F.
  rewrite run_checked_None; [done|].
  apply submat_None. rewrite n_rows_circular, n_cols_circular, HrQ, HcQ.
  word_simpl. lia.
Qed.

Lemma full_in_place_throws_witness :
  ∃ Q,
    full_inputPadded true (ones 3 3) (ones 2 2) = Some Q
    ∧ Convolution FullConvolution true 0%nat 1%nat 0%nat example_store
      = (<[0%nat := circular Q
            (resize (ones 2 2) (full_outputRows (ones 3 3) (ones 2 2))
                    (full_outputCols true (ones 3 3) (ones 2 2)))]>
           example_store,
         Thrown logic_error).
Proof.
  apply (full_in_place_throws true 0%nat 1%nat example_store
           (ones 3 3) (ones 2 2));
    first [by_eval | left; by_eval].
Defined.

(** ** Linearity in the filter *)

Lemma linear_lincomb_filter I a F b G u v :
  n_rows G = n_rows F → n_cols G = n_cols F →
  0 <= n_rows F → 0 <= n_cols F →
  linear I (lincomb a F b G) u v = a * linear I F u v + b * linear I G u v.
Proof.
  intros Hr Hc Hp Hq. unfold linear.
  rewrite n_rows_lincomb, n_cols_lincomb, Hr, Hc.
  rewrite <- sumZ_lincomb.
  apply sumZ_ext. intros k Hk. rewrite <- sumZ_lincomb.
  apply sumZ_ext. intros l Hl. unfold lincomb. rewrite at_build by done. lia.
Qed.

Lemma direct_lincomb_filter mode I a F b G :
  n_rows G = n_rows F → n_cols G = n_cols F →
  pre mode I F →
  direct mode I (lincomb a F b G)
    = lincomb a (direct mode I F) b (direct mode I G).
Proof.
  intros Hr Hc [HwI HwF [? ?] [? ?] Hfit].
  destruct mode; unfold direct, direct_valid, direct_full;
    rewrite lincomb_build, n_rows_lincomb, n_cols_lincomb, Hr, Hc.
  - destruct Hfit. apply build_ext; [lia|]. intros i j Hi Hj.
    rewrite linear_lincomb_filter by (done || lia).
    rewrite !at_build by lia. done.
  - apply build_ext; [lia|]. intros i j Hi Hj.
    rewrite linear_lincomb_filter by (done || lia).
    rewrite !at_build by lia. done.
Qed.

(** X13. Both modes are linear in the filter: for an input [I] and two
    filters [F] and [G] of one shape, the output for the filter
    [a * F + b * G] is [a] times the output for [F] plus [b] times the
    output for [G]. *)
Theorem Convolution_linear_filter mode pad input fF fG fH output σ a b I F G :
  σ !! input = Some I → σ !! fF = Some F → σ !! fG = Some G →
  σ !! fH = Some (lincomb a F b G) →
  output ≠ input → output ≠ fF → output ≠ fG → output ≠ fH →
  n_rows G = n_rows F → n_cols G = n_cols F → wf G →
  pre mode I F →
  ∃ OF OG,
    Convolution mode pad input fF output σ
      = (<[output := OF]> σ, Returned tt)
    ∧ Convolution mode pad input fG output σ
      = (<[output := OG]> σ, Returned tt)
    ∧ Convolution mode pad input fH output σ
      = (<[output := lincomb a OF b OG]> σ, Returned tt).
Proof.
  intros HI HF HG HH Hoi HoF HoG HoH Hr Hc HwG Hpre.
  pose proof Hpre as [HwI HwF HnI HnF Hfit].
  assert (pre mode I G) as HpreG.
  { split; try done.
    - unfold nonempty in *. by rewrite Hr, Hc.
    - destruct mode; simpl in *; [by rewrite Hr, Hc | done]. }
  assert (pre mode I (lincomb a F b G)) as HpreH.
  { split; try done. by apply wf_lincomb. }
  exists (direct mode I F), (direct mode I G).
  split; [by apply Convolution_run|]. split; [by apply Convolution_run|].
  rewrite <- direct_lincomb_filter by done. by apply Convolution_run.
Qed.

Lemma Convolution_linear_filter_witness :
  ∃ OF OG,
    Convolution FullConvolution false 0%nat 1%nat 2%nat filter_store
      = (<[2%nat := OF]> filter_store, Returned tt)
    ∧ Convolution FullConvolution false 0%nat 3%nat 2%nat filter_store
      = (<[2%nat := OG]> filter_store, Returned tt)
    ∧ Convolution FullConvolution false 0%nat 4%nat 2%nat filter_store
      = (<[2%nat := lincomb 3 OF (-2) OG]> filter_store, Returned tt).
Proof.
  apply (Convolution_linear_filter FullConvolution false 0%nat 1%nat 3%nat
           4%nat 2%nat filter_store 3 (-2)
           (mkMat 3 3 [1; 2; 3; 4; 5; 6; 7; 8; 9]) (ones 2 2)
           (mkMat 2 2 [1; 0; 0; -1])); by_eval.
Defined.

(** ** Partial results, mode by mode *)

Lemma full_inputPadded_empty_filter (pad : bool) I F :
  n_rows F = 0 ∨ n_cols F = 0 → full_inputPadded pad I F = None.
Proof.
  intros Hempty. apply set_submat_None.
  unfold zeros. rewrite n_rows_build, n_cols_build.
  destruct Hempty as [-> | ->]; rewrite sub_0_1, modulus_eq.
  - match goal with
    | |- _ > ?r2 ∨ _ ∨ ?r2 >= ?R ∨ _ =>
        assert (0 <= r2 < Word.modulus) by apply wrap_range;
        assert (0 <= R < Word.modulus) by apply wrap_range
    end.
    rewrite modulus_eq in *. lia.
  - match goal with
    | |- _ ∨ _ > ?c2 ∨ _ ∨ ?c2 >= ?C =>
        assert (0 <= c2 < Word.modulus) by apply wrap_range;
        assert (0 <= C < Word.modulus)
          by (unfold full_outputCols; destruct pad; apply wrap_range)
    end.
    rewrite modulus_eq in *. lia.
Qed.

Lemma full_inputPadded_empty_input (pad : bool) I F :
  wf F → nonempty F → n_rows I = 0 ∨ n_cols I = 0 →
  full_inputPadded pad I F = None.
Proof.
  intros HwF HnF Hempty.
  pose proof (wf_rows_small F HwF HnF). pose proof (wf_cols_small F HwF HnF).
  apply set_submat_None. unfold zeros. rewrite n_rows_build, n_cols_build.
  assert (Word.sub (Word.add (Word.sub 1 1) 0) 1 = Word.modulus - 1) as Hlast
    by reflexivity.
  assert (Word.add 0 (Word.mul 2 (Word.sub 1 1)) = 0) as Hwork
    by reflexivity.
  rewrite modulus_eq in Hlast.
  destruct Hempty as [HE | HE]; rewrite HE.
  - destruct (decide (n_rows F = 1)) as [HF1|].
    + right; right; left. unfold full_outputRows.
      rewrite HE, HF1, Hlast, Hwork. lia.
    + left. word_simpl. lia.
  - destruct (decide (n_cols F = 1)) as [HF1|].
    + right; right; right. unfold full_outputCols.
      rewrite HE, HF1, Hlast, Hwork.
      destruct pad; [change (Word.add 0 1) with 1|]; lia.
    + right; left. word_simpl. lia.
Qed.

(** The preconditions are decided by the shapes. *)
Lemma pre_iff mode I F :
  wf I → wf F →
  pre mode I F ↔
    1 <= n_rows I ∧ 1 <= n_cols I ∧ 1 <= n_rows F ∧ 1 <= n_cols F
    ∧ (mode = ValidConvolution →
       n_rows F <= n_rows I ∧ n_cols F <= n_cols I).
Proof.
  intros HwI HwF. split.
  - intros [_ _ [? ?] [? ?] Hfit].
    do 4 (split; [done|]). intros Hmode. by subst mode.
  - intros (? & ? & ? & ? & Hfit). split; try done.
    destruct mode; [by apply Hfit | done].
Qed.

Lemma pre_dec mode I F : wf I → wf F → pre mode I F ∨ ¬ pre mode I F.
Proof.
  intros HwI HwF. rewrite (pre_iff mode I F HwI HwF).
  destruct mode.
  - destruct (decide (1 <= n_rows I ∧ 1 <= n_cols I ∧ 1 <= n_rows F
                      ∧ 1 <= n_cols F ∧ n_rows F <= n_rows I
                      ∧ n_cols F <= n_cols I)) as [H|H].
    + left. do 4 (split; [lia|]). intros _. lia.
    + right. intros (? & ? & ? & ? & Hfit).
      specialize (Hfit eq_refl). apply H. lia.
  - destruct (decide (1 <= n_rows I ∧ 1 <= n_cols I ∧ 1 <= n_rows F
                      ∧ 1 <= n_cols F)) as [H|H].
    + left. do 4 (split; [lia|]). intros Hmode. discriminate.
    + right. intros (? & ? & ? & ? & _). apply H. lia.
Qed.

(** Outside the preconditions a full-mode call throws at the placement
    of the input, before anything is assigned. *)
Lemma Convolution_full_outside_pre pad input filter output σ I F :
  σ !! input = Some I → σ !! filter = Some F →
  wf I → wf F → ¬ pre FullConvolution I F →
  Convolution FullConvolution pad input filter output σ
    = (σ, Thrown logic_error).
Proof.
  intros HI HF HwI HwF Hnpre.
  apply (Convolution_full_throws pad _ _ _ _ I F); try done.
  rewrite (pre_iff _ I F HwI HwF) in Hnpre.
  destruct HwI as [? ? _ _]. pose proof HwF as [? ? _ _].
  destruct (decide (n_rows F = 0 ∨ n_cols F = 0)) as [|HnF];
    [by apply full_inputPadded_empty_filter|].
  apply full_inputPadded_empty_input; [done|split; lia|].
  destruct (decide (n_rows I = 0 ∨ n_cols I = 0)); [done|].
  exfalso. apply Hnpre. repeat split; try lia; done.
Qed.

(** Outside the preconditions a valid-mode call throws at the
    extraction, after the product has been assigned to the output. *)
Lemma Convolution_valid_outside_pre pad input filter output σ I F :
  σ !! input = Some I → σ !! filter = Some F →
  output ≠ input → output ≠ filter →
  wf I → wf F → ¬ pre ValidConvolution I F →
  Convolution ValidConvolution pad input filter output σ =
    (<[output := circular (valid_inputPadded pad I)
         (resize F (n_rows (valid_inputPadded pad I))
                   (n_cols (valid_inputPadded pad I)))]> σ,
     Thrown logic_error).
Proof.
  intros HI HF Hoi Hof HwI HwF Hnpre.
  apply Convolution_valid_throws; try done.
  rewrite (pre_iff _ I F HwI HwF) in Hnpre.
  pose proof HwI as [? ? _ _]. pose proof HwF as [? ? _ _].
  destruct (decide (n_rows I = 0)) as [->|].
  { right; right; left. rewrite sub_0_1, modulus_eq. lia. }
  destruct (decide (n_cols I = 0)) as [->|].
  { right; right; right. rewrite sub_0_1, modulus_eq.
    destruct pad; [change (Word.add 0 1) with 1|]; lia. }
  assert (nonempty I) as HnI by (split; lia).
  pose proof (wf_rows_small I HwI HnI). pose proof (wf_cols_small I HwI HnI).
  destruct (decide (n_rows F = 0)) as [->|].
  { left. rewrite sub_0_1, modulus_eq. word_simpl. lia. }
  destruct (decide (n_cols F = 0)) as [->|].
  { right; left. rewrite sub_0_1, modulus_eq. word_simpl. lia. }
  assert (nonempty F) as HnF by (split; lia).
  pose proof (wf_rows_small F HwF HnF). pose proof (wf_cols_small F HwF HnF).
  destruct (decide (n_rows I < n_rows F)); [left; word_simpl; lia|].
  destruct (decide (n_cols I < n_cols F)); [right; left; word_simpl; lia|].
  exfalso. apply Hnpre. repeat split; lia.
Qed.

(** C5, amended. For every call on an output object distinct from the
    input and the filter, which are matrix objects of any shape, empty
    ones included: within the preconditions the call returns and the
    output holds the complete extracted convolution; outside them the
    call throws, in full mode at the placement of the input, before
    anything is assigned to the output, and in valid mode at the final
    extraction, with the output left holding the un-extracted
    working-size product.  So "no partial result" holds of every
    full-mode call, and of the valid-mode calls within the
    preconditions. *)
Theorem partial_results_by_mode mode pad input filter output σ I F :
  σ !! input = Some I → σ !! filter = Some F →
  output ≠ input → output ≠ filter →
  wf I → wf F →
  (pre mode I F →
     Convolution mode pad input filter output σ
       = (<[output := direct mode I F]> σ, Returned tt))
  ∧ (¬ pre mode I F →
     Convolution mode pad input filter output σ =
       match mode with
       | FullConvolution => (σ, Thrown logic_error)
       | ValidConvolution =>
           (<[output := circular (valid_inputPadded pad I)
                (resize F (n_rows (valid_inputPadded pad I))
                          (n_cols (valid_inputPadded pad I)))]> σ,
            Thrown logic_error)
       end)
  ∧ (mode = FullConvolution ∨ pre mode I F →
     no_partial mode pad input filter output σ).
Proof.
  intros HI HF Hoi Hof HwI HwF.
  assert (pre mode I F → no_partial mode pad input filter output σ) as Hin.
  { intros Hpre. unfold no_partial.
    rewrite (Convolution_run mode pad input filter output σ I F) by done.
    exists I, F. by rewrite lookup_insert_eq. }
  split; [by apply Convolution_run|]. split.
  - intros Hnpre. destruct mode.
    + by apply (Convolution_valid_outside_pre pad input filter output σ I F).
    + by apply (Convolution_full_outside_pre pad input filter output σ I F).
  - intros [-> | Hpre]; [|by apply Hin].
    destruct (pre_dec FullConvolution I F HwI HwF) as [Hpre|Hnpre];
      [by apply Hin|].
    unfold no_partial.
    by rewrite (Convolution_full_outside_pre pad input filter output σ I F).
Qed.

(** The full-mode call of the witness has an empty input; its
    valid-mode call has a filter larger than the input. *)
Lemma partial_results_by_mode_witness :
  no_partial FullConvolution true 0%nat 1%nat 2%nat
    {[ 0%nat := zeros 0 3; 1%nat := ones 2 2; 2%nat := ones 1 1 ]}
  ∧ Convolution ValidConvolution false 0%nat 1%nat 2%nat oversized_store
    = (<[2%nat := circular (valid_inputPadded false (mkMat 1 1 [3]))
          (resize (ones 2 2)
             (n_rows (valid_inputPadded false (mkMat 1 1 [3])))
             (n_cols (valid_inputPadded false (mkMat 1 1 [3]))))]>
         oversized_store,
       Thrown logic_error).
Proof.
  split.
  - apply (partial_results_by_mode FullConvolution true 0%nat 1%nat 2%nat
             {[ 0%nat := zeros 0 3; 1%nat := ones 2 2; 2%nat := ones 1 1 ]}
             (zeros 0 3) (ones 2 2));
      first [by_eval | by left].
  - apply (partial_results_by_mode ValidConvolution false 0%nat 1%nat 2%nat
             oversized_store (mkMat 1 1 [3]) (ones 2 2));
      first [by_eval | intros [_ _ _ _ [Hr _]]; by vm_compute in Hr].
Defined.
